(** * PicSwipe: the Google Photos service client

    A shallow embedding of [src/services/google-photos.ts]: the module-level
    token cache, [getAccessToken], and the four exported operations
    [listMediaItems], [archiveMediaItem], [favoriteMediaItem] and
    [deleteMediaItem].

    The module talks to three collaborators: Firebase Auth, the browser's
    [fetch], and the console.  They are gathered in an environment record
    [Env], and the general statements are quantified over it: they hold
    for any behaviour of the identity provider and of the remote photo API.
    A small executable environment, [Sim], serves to run the module on
    concrete scenarios.

    One call is followed from start to end; calls that interleave at an
    [await] are outside this development. *)

From Stdlib Require Import ZArith String List Bool Lia DecimalString.
From stdpp Require Import base tactics option list strings gmap.

Local Open Scope Z_scope.
#[local] Set Warnings "-register-all".

(** ** JavaScript values

    The response body is parsed with [response.json()] and handled as [any],
    so the embedding keeps JavaScript's dynamic values.  Numbers are
    restricted to integers. *)

Inductive JsVal : Type :=
| JUndefined
| JNull
| JBool (b : bool)
| JNum (n : Z)
| JStr (s : string)
| JArr (elems : list JsVal)
| JObj (props : list (string * JsVal)).

(** Values that can be thrown or that a promise can reject with.
    [Error m] is [new Error(m)], the only kind this module constructs;
    [Foreign name m] is any exception raised by the platform or by a
    collaborator ([TypeError], [SyntaxError], [FirebaseError], ...). *)
Inductive Exn : Type :=
| Error (message : string)
| Foreign (name message : string).

(** A settled promise. *)
Inductive Settled (A : Type) : Type :=
| Resolved (a : A)
| Rejected (e : Exn).
Arguments Resolved {A} a.
Arguments Rejected {A} e.

(** Sequencing of evaluations that may throw. *)
Definition and_then {A B} (p : Settled A) (k : A -> Settled B) : Settled B :=
  match p with
  | Resolved a => k a
  | Rejected e => Rejected e
  end.

Notation "x <~ p ;; k" := (and_then p (fun x => k))
  (at level 100, p at next level, right associativity).

(** JavaScript truthiness, as used by [if (x)], [!x] and [&&]. *)
Definition truthy_string (s : string) : bool := negb (String.eqb s "").
Definition truthy_number (n : Z) : bool := negb (n =? 0).

Definition truthy (v : JsVal) : bool :=
  match v with
  | JUndefined | JNull => false
  | JBool b => b
  | JNum n => truthy_number n
  | JStr s => truthy_string s
  | JArr _ | JObj _ => true
  end.

(** An own property of an object literal; JSON.parse keeps the last of
    several entries with the same key. *)
Fixpoint own_prop (k : string) (props : list (string * JsVal)) : option JsVal :=
  match props with
  | [] => None
  | (k', v) :: rest =>
      match own_prop k rest with
      | Some v' => Some v'
      | None => if String.eqb k k' then Some v else None
      end
  end.

(** [v.k] for the property names this module reads ([mediaItems], [id],
    [baseUrl], [filename], [mimeType]); none of them lives on a built-in
    prototype, so only objects can answer with something other than
    [undefined], and reading from [null] or [undefined] throws. *)
Definition get_prop (v : JsVal) (k : string) : Settled JsVal :=
  match v with
  | JUndefined =>
      Rejected (Foreign "TypeError" ("Cannot read properties of undefined (reading '" +:+ k +:+ "')"))
  | JNull =>
      Rejected (Foreign "TypeError" ("Cannot read properties of null (reading '" +:+ k +:+ "')"))
  | JObj props => Resolved (default JUndefined (own_prop k props))
  | _ => Resolved JUndefined
  end.

Definition number_to_string (n : Z) : string := NilZero.string_of_int (Z.to_int n).

Definition join_with (sep : string) (parts : list string) : string :=
  match parts with
  | [] => ""
  | p :: ps => fold_left (fun acc q => acc +:+ sep +:+ q) ps p
  end.

(** String conversion of a template literal [`${v}`].  An object that
    carries an own [toString] entry cannot be converted (the entry is never
    callable in parsed JSON); array elements [null] and [undefined] print as
    the empty string. *)
Fixpoint to_js_string (v : JsVal) : option string :=
  match v with
  | JUndefined => Some "undefined"
  | JNull => Some "null"
  | JBool true => Some "true"
  | JBool false => Some "false"
  | JNum n => Some (number_to_string n)
  | JStr s => Some s
  | JArr elems =>
      let fix go (l : list JsVal) : option (list string) :=
        match l with
        | [] => Some []
        | e :: l' =>
            match (match e with
                   | JUndefined | JNull => Some ""
                   | _ => to_js_string e
                   end), go l' with
            | Some s, Some ss => Some (s :: ss)
            | _, _ => None
            end
        end in
      match go elems with
      | Some parts => Some (join_with "," parts)
      | None => None
      end
  | JObj props =>
      match own_prop "toString" props with
      | Some _ => None
      | None => Some "[object Object]"
      end
  end.

Definition template (v : JsVal) : Settled string :=
  match to_js_string v with
  | Some s => Resolved s
  | None => Rejected (Foreign "TypeError" "Cannot convert object to primitive value")
  end.

(** ** The collaborators *)

(** Firebase's [User]; only its identity matters here. *)
Record User : Type := { uid : string }.

(** [result.claims?.firebase?.sign_in_provider] walks this structure. *)
Record FirebaseClaims : Type := { sign_in_provider : option string }.
Record Claims : Type := { firebase : option FirebaseClaims }.
Record IdTokenResult : Type := { claims : option Claims }.

Record OAuthCredential : Type := { accessToken : option string }.
(** What [GoogleAuthProvider.credentialFromResult] extracts from the result
    of a popup re-authentication. *)
Record UserCredential : Type := { credentialFromResult : option OAuthCredential }.

Record Request : Type := {
  url : string;
  method : string;
  headers : list (string * string);
  (** the value handed to [JSON.stringify], when the request has a body *)
  body : option JsVal
}.

Record Response : Type := {
  status : Z;
  statusText : string;
  (** how [response.json()] settles *)
  json : Settled JsVal
}.

(** [response.ok], as the Fetch standard defines it. *)
Definition ok (r : Response) : bool := (200 <=? status r) && (status r <=? 299).

(** Everything outside the module.  [Ext] is the state of the outside
    world (the identity provider, the remote library, the clock); each
    asynchronous call may change it. *)
Record Env (Ext : Type) : Type := {
  currentUser : Ext -> option User;
  now : Ext -> Z;
  getIdTokenResult : User -> bool -> Ext -> Settled IdTokenResult * Ext;
  getIdToken : User -> Ext -> Settled string * Ext;
  reauthenticateWithPopup : User -> list string -> Ext -> Settled UserCredential * Ext;
  fetch : Request -> Ext -> Settled Response * Ext
}.
Arguments currentUser {Ext} _ _.
Arguments now {Ext} _ _.
Arguments getIdTokenResult {Ext} _ _ _ _.
Arguments getIdToken {Ext} _ _ _.
Arguments reauthenticateWithPopup {Ext} _ _ _ _.
Arguments fetch {Ext} _ _ _.

(** What [console.error] was given after its label. *)
Inductive Logged : Type :=
| LoggedExn (e : Exn)
| LoggedVal (v : JsVal).

(** The observable calls of a run, oldest first. *)
Inductive Event : Type :=
| EvGetIdTokenResult (u : User) (forceRefresh : bool)
| EvGetIdToken (u : User)
| EvReauthenticate (u : User) (scopes : list string)
| EvFetch (req : Request)
| EvConsoleError (label : string) (arg : Logged).

Definition http_requests (t : list Event) : list Request :=
  omap (fun ev => match ev with EvFetch r => Some r | _ => None end) t.

(** ** The module's state and its effects *)

Section Client.

Context {Ext : Type}.
Variable env : Env Ext.

(** [cachedToken] and [tokenExpiry] are the two module-level variables;
    [ext] is the outside world and [trace] the calls made so far. *)
Record World : Type := {
  cachedToken : option string;
  tokenExpiry : option Z;
  ext : Ext;
  trace : list Event
}.

(** An asynchronous computation: it runs on a world and settles. *)
Definition M (A : Type) : Type := World -> Settled A * World.

Definition ret {A} (a : A) : M A := fun w => (Resolved a, w).
Definition throw {A} (e : Exn) : M A := fun w => (Rejected e, w).

Definition bind {A B} (m : M A) (k : A -> M B) : M B :=
  fun w =>
    match m w with
    | (Resolved a, w') => k a w'
    | (Rejected e, w') => (Rejected e, w')
    end.

(** [try { m } catch (error) { h error }] *)
Definition try_catch {A} (m : M A) (h : Exn -> M A) : M A :=
  fun w =>
    match m w with
    | (Resolved a, w') => (Resolved a, w')
    | (Rejected e, w') => h e w'
    end.

(** [promise.catch(() => fallback)] *)
Definition or_else {A} (p : Settled A) (fallback : A) : A :=
  match p with
  | Resolved a => a
  | Rejected _ => fallback
  end.

(** Lifting an already settled promise. *)
Definition settle {A} (p : Settled A) : M A := fun w => (p, w).

(** [await] on a call into the outside world: the call is recorded, the
    world moves on, and the promise's outcome is the computation's. *)
Definition await {A} (ev : Event) (call : Ext -> Settled A * Ext) : M A :=
  fun w =>
    let '(r, x) := call (ext w) in
    (r, {| cachedToken := cachedToken w; tokenExpiry := tokenExpiry w;
           ext := x; trace := trace w ++ [ev] |}).

Definition console_error (label : string) (arg : Logged) : M unit :=
  fun w =>
    (Resolved tt, {| cachedToken := cachedToken w; tokenExpiry := tokenExpiry w;
                     ext := ext w; trace := trace w ++ [EvConsoleError label arg] |}).

(** Assignment to both cache variables. *)
Definition set_cache (t : option string) (e : option Z) : M unit :=
  fun w =>
    (Resolved tt, {| cachedToken := t; tokenExpiry := e;
                     ext := ext w; trace := trace w |}).

Definition date_now : M Z := fun w => (Resolved (now env (ext w)), w).

End Client.

Arguments World Ext : clear implicits.
Arguments M Ext A : clear implicits.

Declare Scope js_scope.
Delimit Scope js_scope with js.
Notation "x <- m ;; k" := (bind m (fun x => k))
  (at level 100, m at next level, right associativity) : js_scope.
Notation "m ;;; k" := (bind m (fun _ => k))
  (at level 100, right associativity) : js_scope.

(** ** The service module *)

Section Service.

Context {Ext : Type}.
Variable env : Env Ext.

Local Open Scope js_scope.

Abbreviation M := (M Ext).

(** [cachedToken && tokenExpiry && Date.now() < tokenExpiry] *)
Definition cache_valid (w : World Ext) : bool :=
  match cachedToken w, tokenExpiry w with
  | Some t, Some e => truthy_string t && truthy_number e && (now env (ext w) <? e)
  | _, _ => false
  end.

Definition photoslibrary_scope : string := "https://www.googleapis.com/auth/photoslibrary".

(** [provider === 'google.com'] for
    [provider = result.claims?.firebase?.sign_in_provider]. *)
Definition provider_of (result : IdTokenResult) : option string :=
  match claims result with
  | Some c =>
      match firebase c with
      | Some f => sign_in_provider f
      | None => None
      end
  | None => None
  end.

Definition is_google (provider : option string) : bool :=
  match provider with
  | Some p => String.eqb p "google.com"
  | None => false
  end.

(** [credentialFromResult(userCred)?.accessToken] *)
Definition access_token_of (userCred : UserCredential) : option string :=
  match credentialFromResult userCred with
  | Some c => accessToken c
  | None => None
  end.

(** [cachedToken = t; tokenExpiry = Date.now() + 3600000; return t] *)
Definition cache_and_return (t : string) : M (option string) :=
  n <- date_now env ;;
  set_cache (Some t) (Some (n + 3600000)) ;;;
  ret (Some t).

(** The body of the [try] block of [getAccessToken].  The inner block
    yields [Some] when the source returns from inside the [if]. *)
Definition acquire_token (user : User) : M (option string) :=
  result <- await (EvGetIdTokenResult user true) (getIdTokenResult env user true) ;;
  returned <-
    (if is_google (provider_of result) then
       credential <- await (EvGetIdToken user) (getIdToken env user) ;;
       if truthy_string credential then cache_and_return credential
       else ret None
     else ret None) ;;
  match returned with
  | Some credential => ret (Some credential)
  | None =>
      userCred <- await (EvReauthenticate user [photoslibrary_scope])
                        (reauthenticateWithPopup env user [photoslibrary_scope]) ;;
      match access_token_of userCred with
      | Some accessToken =>
          if truthy_string accessToken then cache_and_return accessToken
          else throw (Error "Failed to get access token")
      | None => throw (Error "Failed to get access token")
      end
  end.

Definition getAccessToken : M (option string) :=
  fun w =>
    match currentUser env (ext w) with
    | None => ret None w
    | Some user =>
        if cache_valid w then ret (cachedToken w) w
        else
          try_catch (acquire_token user)
            (fun error =>
               console_error "Error getting access token:" (LoggedExn error) ;;;
               throw (Error "Failed to get access token")) w
    end.

(** The cache never holds the empty string as a token. *)
Definition cache_wf (w : World Ext) : Prop :=
  forall t, cachedToken w = Some t -> t <> "".

(** How the silent retrieval at the head of [acquire_token] can end, read
    off the identity provider: with a token, with a session that was not
    opened through Google, with an empty token, or with a rejection of one
    of its two calls. *)
Inductive SilentOutcome : Type :=
| SilentToken (t : string)
| WrongProvider
| SilentEmpty
| SilentRejected (e : Exn).

Definition silent_outcome (user : User) (s : Ext) : SilentOutcome * Ext :=
  match getIdTokenResult env user true s with
  | (Rejected e, s1) => (SilentRejected e, s1)
  | (Resolved result, s1) =>
      if is_google (provider_of result) then
        match getIdToken env user s1 with
        | (Rejected e, s2) => (SilentRejected e, s2)
        | (Resolved credential, s2) =>
            if truthy_string credential then (SilentToken credential, s2)
            else (SilentEmpty, s2)
        end
      else (WrongProvider, s1)
  end.

(** "On a cache miss, [getAccessToken] opens the re-authentication popup
    whenever the silent retrieval ends in one of the [outcomes]." *)
Definition falls_back_on (outcomes : SilentOutcome -> Prop) : Prop :=
  forall (w : World Ext) (user : User) (o : SilentOutcome) (s : Ext),
    currentUser env (ext w) = Some user ->
    cache_valid w = false ->
    silent_outcome user (ext w) = (o, s) ->
    outcomes o ->
    In (EvReauthenticate user [photoslibrary_scope]) (trace (snd (getAccessToken w))).

(** [if (!token) throw new Error('Not authenticated')] *)
Definition require_token (token : option string) : M string :=
  match token with
  | Some t => if truthy_string t then ret t else throw (Error "Not authenticated")
  | None => throw (Error "Not authenticated")
  end.

Definition auth_headers (token : string) : list (string * string) :=
  [("Authorization", "Bearer " +:+ token); ("Content-Type", "application/json")].

Definition api_base : string := "https://photoslibrary.googleapis.com/v1/mediaItems".

Definition list_request (token : string) : Request :=
  {| url := api_base +:+ "?pageSize=100"; method := "GET";
     headers := auth_headers token; body := None |}.

(** The object built for each element by the [map] callback. *)
Record MediaItem : Type := {
  id : JsVal;
  baseUrl : string;
  filename : JsVal;
  mimeType : JsVal
}.

Definition display_size : string := "=w1024-h1024".

Definition to_media_item (item : JsVal) : Settled MediaItem :=
  i <~ get_prop item "id" ;;
  b <~ get_prop item "baseUrl" ;;
  u <~ template b ;;
  f <~ get_prop item "filename" ;;
  m <~ get_prop item "mimeType" ;;
  Resolved {| id := i; baseUrl := u +:+ display_size; filename := f; mimeType := m |}.

(** "[m] is the response item [raw] with only [baseUrl] changed, by
    appending the size suffix." *)
Definition item_kept (raw : JsVal) (m : MediaItem) : Prop :=
  get_prop raw "id" = Resolved (id m) /\
  get_prop raw "filename" = Resolved (filename m) /\
  get_prop raw "mimeType" = Resolved (mimeType m) /\
  (exists b u, get_prop raw "baseUrl" = Resolved b /\ to_js_string b = Some u /\
               baseUrl m = u +:+ "=w1024-h1024") /\
  (forall u, get_prop raw "baseUrl" = Resolved (JStr u) ->
             baseUrl m = u +:+ "=w1024-h1024").

(** [Array.prototype.map]: elements in order, stopping at the first throw. *)
Fixpoint map_items (items : list JsVal) : Settled (list MediaItem) :=
  match items with
  | [] => Resolved []
  | item :: rest =>
      m <~ to_media_item item ;;
      ms <~ map_items rest ;;
      Resolved (m :: ms)
  end.

(** [data.mediaItems.map(...)] on a truthy [data.mediaItems]. *)
Definition js_map (mediaItems : JsVal) : Settled (list MediaItem) :=
  match mediaItems with
  | JArr items => map_items items
  | _ => Rejected (Foreign "TypeError" "data.mediaItems.map is not a function")
  end.

(** The [try] block of [listMediaItems]. *)
Definition list_attempt (token : string) : M (list MediaItem) :=
  response <- await (EvFetch (list_request token)) (fetch env (list_request token)) ;;
  if negb (ok response) then
    if status response =? 401 then
      set_cache None None ;;;
      throw (Error "Authentication expired, please try again")
    else
      let errorData := or_else (json response) (JObj []) in
      console_error "Google Photos API Error:" (LoggedVal errorData) ;;;
      throw (Error ("Failed to fetch media items: " +:+ number_to_string (status response)
                    +:+ " " +:+ statusText response))
  else
    data <- settle (json response) ;;
    mediaItems <- settle (get_prop data "mediaItems") ;;
    if negb (truthy mediaItems) then ret []
    else settle (js_map mediaItems).

Definition listMediaItems : M (list MediaItem) :=
  token <- getAccessToken ;;
  token <- require_token token ;;
  try_catch (list_attempt token)
    (fun error =>
       console_error "Error fetching media items:" (LoggedExn error) ;;;
       throw error).

Definition batchModify_request (field mediaItemId token : string) : Request :=
  {| url := api_base +:+ "/" +:+ mediaItemId +:+ ":batchModify"; method := "POST";
     headers := auth_headers token;
     body := Some (JObj [("mediaItemIds", JArr [JStr mediaItemId]);
                         ("updateMask", JStr field);
                         (field, JBool true)]) |}.

(** The [try] block of [archiveMediaItem]. *)
Definition archive_attempt (mediaItemId token : string) : M unit :=
  response <- await (EvFetch (batchModify_request "archive" mediaItemId token))
                    (fetch env (batchModify_request "archive" mediaItemId token)) ;;
  if negb (ok response) then
    let errorData := or_else (json response) (JObj []) in
    console_error "Google Photos API Error:" (LoggedVal errorData) ;;;
    throw (Error "Failed to archive media item")
  else ret tt.

Definition archiveMediaItem (mediaItemId : string) : M unit :=
  token <- getAccessToken ;;
  token <- require_token token ;;
  try_catch (archive_attempt mediaItemId token)
    (fun error =>
       console_error "Error archiving media item:" (LoggedExn error) ;;;
       throw (Error "Failed to archive media item")).

(** The [try] block of [favoriteMediaItem]. *)
Definition favorite_attempt (mediaItemId token : string) : M unit :=
  response <- await (EvFetch (batchModify_request "favorite" mediaItemId token))
                    (fetch env (batchModify_request "favorite" mediaItemId token)) ;;
  if negb (ok response) then
    let errorData := or_else (json response) (JObj []) in
    console_error "Google Photos API Error:" (LoggedVal errorData) ;;;
    throw (Error "Failed to favorite media item")
  else ret tt.

Definition favoriteMediaItem (mediaItemId : string) : M unit :=
  token <- getAccessToken ;;
  token <- require_token token ;;
  try_catch (favorite_attempt mediaItemId token)
    (fun error =>
       console_error "Error favoriting media item:" (LoggedExn error) ;;;
       throw (Error "Failed to favorite media item")).

Definition delete_request (mediaItemId token : string) : Request :=
  {| url := api_base +:+ "/" +:+ mediaItemId; method := "DELETE";
     headers := auth_headers token; body := None |}.

(** The [try] block of [deleteMediaItem]. *)
Definition delete_attempt (mediaItemId token : string) : M unit :=
  response <- await (EvFetch (delete_request mediaItemId token))
                    (fetch env (delete_request mediaItemId token)) ;;
  if negb (ok response) then
    let errorData := or_else (json response) (JObj []) in
    console_error "Google Photos API Error:" (LoggedVal errorData) ;;;
    throw (Error "Failed to delete media item")
  else ret tt.

Definition deleteMediaItem (mediaItemId : string) : M unit :=
  token <- getAccessToken ;;
  token <- require_token token ;;
  try_catch (delete_attempt mediaItemId token)
    (fun error =>
       console_error "Error deleting media item:" (LoggedExn error) ;;;
       throw (Error "Failed to delete media item")).

(** The three mutations share one shape; they differ in the request that
    is sent and in the two texts. *)
Definition mutation_attempt (req : Request) (failure : string) : M unit :=
  response <- await (EvFetch req) (fetch env req) ;;
  if negb (ok response) then
    let errorData := or_else (json response) (JObj []) in
    console_error "Google Photos API Error:" (LoggedVal errorData) ;;;
    throw (Error failure)
  else ret tt.

Definition mutation (req : string -> Request) (label failure : string) : M unit :=
  token <- getAccessToken ;;
  token <- require_token token ;;
  try_catch (mutation_attempt (req token) failure)
    (fun error =>
       console_error label (LoggedExn error) ;;;
       throw (Error failure)).

(** "Every error raised in the [try] block reaches the caller as it is." *)
Definition attempt_errors_surface_unchanged {A} (op : M A) (attempt : string -> M A) : Prop :=
  forall (w w0 w1 : World Ext) (token : string) (e : Exn),
    getAccessToken w = (Resolved (Some token), w0) ->
    attempt token w0 = (Rejected e, w1) ->
    fst (op w) = Rejected e.

(** "Every error raised in the [try] block reaches the caller as [e']." *)
Definition attempt_errors_surface_as {A} (e' : Exn) (op : M A) (attempt : string -> M A) : Prop :=
  forall (w w0 w1 : World Ext) (token : string) (e : Exn),
    getAccessToken w = (Resolved (Some token), w0) ->
    attempt token w0 = (Rejected e, w1) ->
    fst (op w) = Rejected e'.

(** "A failure of [getAccessToken] ends the operation there and then, with
    the same error." *)
Definition token_failure_short_circuits {A} (op : M A) : Prop :=
  forall (w w0 : World Ext) (e : Exn),
    getAccessToken w = (Rejected e, w0) ->
    op w = (Rejected e, w0) /\ http_requests (trace w0) = http_requests (trace w).

(** "At most one HTTP request per call." *)
Definition at_most_one_request {A} (op : M A) : Prop :=
  forall w : World Ext,
    exists reqs, http_requests (trace (snd (op w))) = http_requests (trace w) ++ reqs /\
                 (length reqs <= 1)%nat.

End Service.

(** ** The remote library, as far as the mutations are concerned

    The photo API is a collaborator outside the repository: the module
    sees it only through [fetch], and nothing in the source says what a
    request does to the remote library.  Statements about remote state
    are therefore made for remotes that serve a batchModify request as a
    partial update: the field named by [updateMask] is set to the given
    value on the listed items.  The contract is a hypothesis of those
    statements, and the simulated remote below satisfies it. *)

Inductive Field : Type := Favorite | Archive.

Record Flags : Type := { is_favorite : bool; is_archived : bool }.

Record Update : Type := { targets : list string; mask : Field; value : bool }.

Definition field_name (f : Field) : string :=
  match f with
  | Favorite => "favorite"
  | Archive => "archive"
  end.

Definition field_of_name (s : string) : option Field :=
  if String.eqb s "favorite" then Some Favorite
  else if String.eqb s "archive" then Some Archive
  else None.

Fixpoint strings_of (vs : list JsVal) : option (list string) :=
  match vs with
  | [] => Some []
  | JStr s :: rest =>
      match strings_of rest with
      | Some ss => Some (s :: ss)
      | None => None
      end
  | _ => None
  end.

(** Reading a request the way the batchModify endpoint does. *)
Definition parse_update (req : Request) : option Update :=
  if negb (String.eqb (method req) "POST") then None
  else
    match body req with
    | Some (JObj props) =>
        match own_prop "mediaItemIds" props, own_prop "updateMask" props with
        | Some (JArr ids), Some (JStr m) =>
            match strings_of ids, field_of_name m with
            | Some ss, Some f =>
                match own_prop (field_name f) props with
                | Some (JBool b) => Some {| targets := ss; mask := f; value := b |}
                | _ => None
                end
            | _, _ => None
            end
        | _, _ => None
        end
    | _ => None
    end.

Definition set_flag (f : Field) (v : bool) (fl : Flags) : Flags :=
  match f with
  | Favorite => {| is_favorite := v; is_archived := is_archived fl |}
  | Archive => {| is_favorite := is_favorite fl; is_archived := v |}
  end.

Definition apply_update (u : Update) (lib : gmap string Flags) : gmap string Flags :=
  foldr (fun i acc => alter (set_flag (mask u) (value u)) i acc) lib (targets u).

(** The contract of a partial-update remote.  [library] reads the flags
    of the remote items off the outside world. *)
Record PartialUpdateRemote {Ext : Type} (env : Env Ext)
    (library : Ext -> gmap string Flags) : Prop := {
  (** a successful batchModify sets the masked field on the listed items *)
  update_applied : forall req u s resp s',
    parse_update req = Some u ->
    fetch env req s = (Resolved resp, s') -> ok resp = true ->
    library s' = apply_update u (library s);
  (** a request that is not answered with success (refused, or never
      delivered) changes nothing *)
  refusal_keeps_library : forall req s out s',
    fetch env req s = (out, s') ->
    (forall resp, out = Resolved resp -> ok resp = false) ->
    library s' = library s;
  (** an update that was accepted is accepted again when repeated *)
  repeat_accepted : forall req u s resp s',
    parse_update req = Some u ->
    fetch env req s = (Resolved resp, s') -> ok resp = true ->
    exists resp2 s2, fetch env req s' = (Resolved resp2, s2) /\ ok resp2 = true;
  (** the identity provider does not touch the library *)
  getIdTokenResult_keeps_library : forall u b s,
    library (snd (getIdTokenResult env u b s)) = library s;
  getIdToken_keeps_library : forall u s,
    library (snd (getIdToken env u s)) = library s;
  reauthenticate_keeps_library : forall u sc s,
    library (snd (reauthenticateWithPopup env u sc s)) = library s
}.

Section RemoteClaims.

Context {Ext : Type}.
Variable env : Env Ext.
Variable library : Ext -> gmap string Flags.

(** "Every request issued by [op i] is the batchModify of the one field
    [field], set to [true], on the one item [i]; a failed call leaves the
    library as it was, and a successful call has changed that one field of
    that one item and nothing else." *)
Definition one_field_mutation (field : Field) (op : string -> M Ext unit) : Prop :=
  forall (i : string) (w w' : World Ext) (r : Settled unit),
    op i w = (r, w') ->
    (exists reqs,
       http_requests (trace w') = http_requests (trace w) ++ reqs /\
       (length reqs <= 1)%nat /\
       Forall (fun req =>
                 (exists token, req = batchModify_request (field_name field) i token) /\
                 parse_update req = Some {| targets := [i]; mask := field; value := true |})
              reqs) /\
    (forall e, r = Rejected e -> library (ext w') = library (ext w)) /\
    (r = Resolved tt ->
     library (ext w') = alter (set_flag field true) i (library (ext w))).

(** "Repeating a successful [op i] while the session lasts and the cached
    token is still valid succeeds again and leaves the library as the
    first call left it." *)
Definition idempotent_mutation (op : string -> M Ext unit) : Prop :=
  forall (i : string) (w w1 : World Ext) (user : User),
    op i w = (Resolved tt, w1) ->
    currentUser env (ext w1) = Some user ->
    cache_valid env w1 = true ->
    exists w2, op i w1 = (Resolved tt, w2) /\ library (ext w2) = library (ext w1).

End RemoteClaims.

(** ** A simulated outside world

    A small executable environment on which the module can be run: one
    identity provider with a fixed answer per call, one remote library that
    accepts a single bearer token, and a clock that advances by one
    millisecond per asynchronous call. *)

Module Sim.

Record State : Type := {
  session : option User;
  clock : Z;
  id_token_result : Settled IdTokenResult;
  id_token : Settled string;
  popup : Settled UserCredential;
  accepted : string;
  online : bool;
  catalog : Settled JsVal;
  library : gmap string Flags
}.

Definition tick (s : State) : State :=
  {| session := session s; clock := clock s + 1;
     id_token_result := id_token_result s; id_token := id_token s;
     popup := popup s; accepted := accepted s; online := online s;
     catalog := catalog s; library := library s |}.

Definition with_library (lib : gmap string Flags) (s : State) : State :=
  {| session := session s; clock := clock s;
     id_token_result := id_token_result s; id_token := id_token s;
     popup := popup s; accepted := accepted s; online := online s;
     catalog := catalog s; library := lib |}.

Definition with_catalog (c : Settled JsVal) (s : State) : State :=
  {| session := session s; clock := clock s;
     id_token_result := id_token_result s; id_token := id_token s;
     popup := popup s; accepted := accepted s; online := online s;
     catalog := c; library := library s |}.

Definition authorized (req : Request) (s : State) : bool :=
  match headers req with
  | (k, v) :: _ => String.eqb k "Authorization" && String.eqb v ("Bearer " +:+ accepted s)
  | [] => false
  end.

Definition known (lib : gmap string Flags) (i : string) : bool :=
  match lib !! i with
  | Some _ => true
  | None => false
  end.

Definition respond (code : Z) (text : string) (payload : Settled JsVal) : Response :=
  {| status := code; statusText := text; json := payload |}.

Definition serve (req : Request) (s : State) : Settled Response * State :=
  if negb (online s) then (Rejected (Foreign "TypeError" "Failed to fetch"), tick s)
  else if negb (authorized req s) then
    (Resolved (respond 401 "Unauthorized" (Resolved (JObj []))), tick s)
  else if String.eqb (method req) "GET" then
    (Resolved (respond 200 "OK" (catalog s)), tick s)
  else
    match parse_update req with
    | Some u =>
        if forallb (known (library s)) (targets u) then
          (Resolved (respond 200 "OK" (Resolved (JObj []))),
           with_library (apply_update u (library s)) (tick s))
        else (Resolved (respond 404 "Not Found" (Resolved (JObj []))), tick s)
    | None => (Resolved (respond 403 "Forbidden" (Rejected (Foreign "SyntaxError" "Unexpected end of JSON input"))), tick s)
    end.

Definition env : Env State :=
  {| currentUser := session;
     now := clock;
     getIdTokenResult := fun _ _ s => (id_token_result s, tick s);
     getIdToken := fun _ s => (id_token s, tick s);
     reauthenticateWithPopup := fun _ _ s => (popup s, tick s);
     fetch := serve |}.

Definition alice : User := {| uid := "alice" |}.

Definition google_result : IdTokenResult :=
  {| claims := Some {| firebase := Some {| sign_in_provider := Some "google.com" |} |} |}.

Definition password_result : IdTokenResult :=
  {| claims := Some {| firebase := Some {| sign_in_provider := Some "password" |} |} |}.

Definition photo (i u : string) : JsVal :=
  JObj [("id", JStr i); ("baseUrl", JStr u);
        ("filename", JStr (i +:+ ".jpg")); ("mimeType", JStr "image/jpeg")].

Definition two_photos : JsVal :=
  JObj [("mediaItems", JArr [photo "a" "https://lh3.example/a"; photo "b" "https://lh3.example/b"])].

Definition plain : Flags := {| is_favorite := false; is_archived := false |}.

(** Alice is signed in with Google, her session token is the one the remote
    accepts, and the library holds the photos [a] and [b]. *)
Definition start : State :=
  {| session := Some alice; clock := 1000;
     id_token_result := Resolved google_result;
     id_token := Resolved "tok-1";
     popup := Resolved {| credentialFromResult := Some {| accessToken := Some "tok-2" |} |};
     accepted := "tok-1"; online := true;
     catalog := Resolved two_photos;
     library := <["a" := plain]> (<["b" := plain]> ∅) |}.

Definition fresh (s : State) : World State :=
  {| cachedToken := None; tokenExpiry := None; ext := s; trace := [] |}.

Definition cached (t : string) (e : Z) (s : State) : World State :=
  {| cachedToken := Some t; tokenExpiry := Some e; ext := s; trace := [] |}.

(** Nobody is signed in. *)
Definition signed_out : State :=
  {| session := None; clock := clock start;
     id_token_result := id_token_result start; id_token := id_token start;
     popup := popup start; accepted := accepted start; online := online start;
     catalog := catalog start; library := library start |}.

(** The remote no longer accepts the session token. *)
Definition revoked : State :=
  {| session := session start; clock := clock start;
     id_token_result := id_token_result start; id_token := id_token start;
     popup := popup start; accepted := "tok-9"; online := online start;
     catalog := catalog start; library := library start |}.

(** The network is down: every [fetch] rejects. *)
Definition offline : State :=
  {| session := session start; clock := clock start;
     id_token_result := id_token_result start; id_token := id_token start;
     popup := popup start; accepted := accepted start; online := false;
     catalog := catalog start; library := library start |}.

(** The identity provider cannot be reached. *)
Definition idp_down : State :=
  {| session := session start; clock := clock start;
     id_token_result := Rejected (Foreign "FirebaseError" "auth/network-request-failed");
     id_token := id_token start;
     popup := popup start; accepted := accepted start; online := online start;
     catalog := catalog start; library := library start |}.

(** Alice signed in with a password, not with Google. *)
Definition password_session : State :=
  {| session := session start; clock := clock start;
     id_token_result := Resolved password_result;
     id_token := id_token start;
     popup := popup start; accepted := accepted start; online := online start;
     catalog := catalog start; library := library start |}.

End Sim.

(** ** Further notions about a run *)

(** The re-authentication popups opened in a stretch of the trace. *)
Definition reauthentications (t : list Event) : list (User * list string) :=
  omap (fun ev => match ev with EvReauthenticate u sc => Some (u, sc) | _ => None end) t.

(** The calls made to the identity provider in a stretch of the trace. *)
Definition provider_calls (t : list Event) : list Event :=
  omap (fun ev => match ev with
                  | EvGetIdTokenResult _ _ | EvGetIdToken _ | EvReauthenticate _ _ => Some ev
                  | _ => None
                  end) t.

(** The sequences of calls the [try] block of [getAccessToken] can make. *)
Definition acquisition_calls (user : User) : list (list Event) :=
  [ [EvGetIdTokenResult user true];
    [EvGetIdTokenResult user true; EvGetIdToken user];
    [EvGetIdTokenResult user true; EvReauthenticate user [photoslibrary_scope]];
    [EvGetIdTokenResult user true; EvGetIdToken user;
     EvReauthenticate user [photoslibrary_scope]] ].

Definition is_log (ev : Event) : Prop :=
  match ev with
  | EvConsoleError _ _ => True
  | _ => False
  end.

(** The two cache variables are set together, and never to the empty
    token. *)
Definition cache_consistent {Ext : Type} (w : World Ext) : Prop :=
  match cachedToken w, tokenExpiry w with
  | Some t, Some _ => t <> ""
  | None, None => True
  | _, _ => False
  end.

Section OperationNotions.

Context {Ext : Type}.
Variable env : Env Ext.

(** "Every HTTP request of a call carries the token [getAccessToken] gave
    it, as a bearer token, and the JSON content type; the token is not
    empty and is the one in the cache." *)
Definition sends_only_authorized {A} (op : M Ext A) : Prop :=
  forall w : World Ext,
    exists reqs,
      http_requests (trace (snd (op w))) = http_requests (trace w) ++ reqs /\
      Forall (fun req =>
                exists token,
                  fst (getAccessToken env w) = Resolved (Some token) /\
                  cachedToken (snd (getAccessToken env w)) = Some token /\
                  token <> "" /\
                  headers req = [("Authorization", "Bearer " +:+ token);
                                 ("Content-Type", "application/json")])
             reqs.

(** "The call resolves exactly when a token was obtained and the request
    [req token] was answered with a status from 200 to 299." *)
Definition succeeds_iff_accepted (op : M Ext unit) (req : string -> Request) : Prop :=
  forall w : World Ext,
    fst (op w) = Resolved tt <->
    exists token w0 resp s1,
      getAccessToken env w = (Resolved (Some token), w0) /\
      fetch env (req token) (ext w0) = (Resolved resp, s1) /\
      200 <= status resp <= 299.

(** "With a session and a valid cached token, the call does nothing but
    send [req token] with the cached token and, possibly, write to the
    console." *)
Definition calls_only_the_remote {A} (op : M Ext A) (req : string -> Request) : Prop :=
  forall (w : World Ext) (user : User),
    currentUser env (ext w) = Some user ->
    cache_valid env w = true ->
    exists token logs,
      cachedToken w = Some token /\
      trace (snd (op w)) = trace w ++ EvFetch (req token) :: logs /\
      Forall is_log logs.

(** "With a session, a call that rejects has written to the console last." *)
Definition rejections_logged {A} (op : M Ext A) : Prop :=
  forall (w w' : World Ext) (user : User) (e : Exn),
    currentUser env (ext w) = Some user ->
    op w = (Rejected e, w') ->
    exists pre label arg, trace w' = pre ++ [EvConsoleError label arg].

End OperationNotions.

(** ** The page: the cursor into the list of photos

    [src/app/page.tsx] keeps the fetched items and an index into them.
    Three expressions of the component decide what the cursor shows and
    where it goes. *)

Module Page.

(** [mediaItems[currentIndex]] *)
Definition current_item (mediaItems : list MediaItem) (currentIndex : Z) : option MediaItem :=
  if currentIndex <? 0 then None else mediaItems !! Z.to_nat currentIndex.

(** The index requested by [handleSwipeRight]:
    [if (currentIndex < mediaItems.length - 1) setCurrentIndex(currentIndex + 1)]. *)
Definition handleSwipeRight (mediaItems : list MediaItem) (currentIndex : Z) : Z :=
  if currentIndex <? Z.of_nat (length mediaItems) - 1 then currentIndex + 1
  else currentIndex.

(** [items.filter((_, index) => keep(index))], counting from [index]. *)
Fixpoint filter_index {A} (keep : Z -> bool) (index : Z) (items : list A) : list A :=
  match items with
  | [] => []
  | x :: rest =>
      if keep index then x :: filter_index keep (index + 1) rest
      else filter_index keep (index + 1) rest
  end.

(** The update requested by [handleSwipeLeft] after a successful delete:
    [items.filter((_, index) => index !== currentIndex)]. *)
Definition remove_current (currentIndex : Z) (items : list MediaItem) : list MediaItem :=
  filter_index (fun index => negb (index =? currentIndex)) 0 items.

End Page.

(** ** More simulated collaborators *)

Module Scenario.

(** The world of [Sim], but with a remote that answers every request with
    the same response. *)
Definition answering (resp : Response) : Env Sim.State :=
  {| currentUser := Sim.session;
     now := Sim.clock;
     getIdTokenResult := fun _ _ s => (Sim.id_token_result s, Sim.tick s);
     getIdToken := fun _ s => (Sim.id_token s, Sim.tick s);
     reauthenticateWithPopup := fun _ _ s => (Sim.popup s, Sim.tick s);
     fetch := fun _ s => (Resolved resp, Sim.tick s) |}.

Definition server_error : Response :=
  {| status := 500; statusText := "Internal Server Error";
     json := Rejected (Foreign "SyntaxError" "Unexpected token < in JSON") |}.

Definition no_content : Response :=
  {| status := 204; statusText := "No Content";
     json := Rejected (Foreign "SyntaxError" "Unexpected end of JSON input") |}.

Definition not_modified : Response :=
  {| status := 304; statusText := "Not Modified"; json := Resolved (JObj []) |}.

(** Alice signed in with a password and the popup yields a credential
    without an access token. *)
Definition popup_without_token : Sim.State :=
  {| Sim.session := Sim.session Sim.start; Sim.clock := Sim.clock Sim.start;
     Sim.id_token_result := Resolved Sim.password_result;
     Sim.id_token := Sim.id_token Sim.start;
     Sim.popup := Resolved {| credentialFromResult := Some {| accessToken := None |} |};
     Sim.accepted := Sim.accepted Sim.start; Sim.online := Sim.online Sim.start;
     Sim.catalog := Sim.catalog Sim.start; Sim.library := Sim.library Sim.start |}.

Definition item (i : string) : MediaItem :=
  {| id := JStr i; baseUrl := "https://lh3.example/" +:+ i +:+ "=w1024-h1024";
     filename := JStr (i +:+ ".jpg"); mimeType := JStr "image/jpeg" |}.

Definition three_items : list MediaItem := [item "a"; item "b"; item "c"].

End Scenario.

(** ** Running the module on the simulated world *)

Example list_two_photos :
  fst (listMediaItems Sim.env (Sim.fresh Sim.start))
  = Resolved
      [{| id := JStr "a"; baseUrl := "https://lh3.example/a=w1024-h1024";
          filename := JStr "a.jpg"; mimeType := JStr "image/jpeg" |};
       {| id := JStr "b"; baseUrl := "https://lh3.example/b=w1024-h1024";
          filename := JStr "b.jpg"; mimeType := JStr "image/jpeg" |}].
Proof. reflexivity. Qed.

Example list_calls :
  trace (snd (listMediaItems Sim.env (Sim.fresh Sim.start)))
  = [EvGetIdTokenResult Sim.alice true; EvGetIdToken Sim.alice;
     EvFetch (list_request "tok-1")].
Proof. reflexivity. Qed.

Example list_caches_for_an_hour :
  let w' := snd (listMediaItems Sim.env (Sim.fresh Sim.start)) in
  cachedToken w' = Some "tok-1" /\ tokenExpiry w' = Some 3601002.
Proof. split; reflexivity. Qed.

Example list_null_media_items :
  fst (listMediaItems Sim.env
         (Sim.fresh (Sim.with_catalog (Resolved (JObj [("mediaItems", JNull)])) Sim.start)))
  = Resolved [].
Proof. reflexivity. Qed.

Example list_media_items_not_an_array :
  fst (listMediaItems Sim.env
         (Sim.fresh (Sim.with_catalog (Resolved (JObj [("mediaItems", JStr "none")])) Sim.start)))
  = Rejected (Foreign "TypeError" "data.mediaItems.map is not a function").
Proof. reflexivity. Qed.

Example list_item_without_baseUrl :
  fst (listMediaItems Sim.env
         (Sim.fresh (Sim.with_catalog
                       (Resolved (JObj [("mediaItems", JArr [JObj [("id", JStr "x")]])]))
                       Sim.start)))
  = Resolved [{| id := JStr "x"; baseUrl := "undefined=w1024-h1024";
                 filename := JUndefined; mimeType := JUndefined |}].
Proof. reflexivity. Qed.

Example list_unparsable_body :
  fst (listMediaItems Sim.env
         (Sim.fresh (Sim.with_catalog
                       (Rejected (Foreign "SyntaxError" "Unexpected token < in JSON"))
                       Sim.start)))
  = Rejected (Foreign "SyntaxError" "Unexpected token < in JSON").
Proof. reflexivity. Qed.

Example favorite_sets_the_flag :
  let w' := snd (favoriteMediaItem Sim.env "a" (Sim.fresh Sim.start)) in
  Sim.library (ext w') !! "a" = Some {| is_favorite := true; is_archived := false |} /\
  Sim.library (ext w') !! "b" = Some Sim.plain.
Proof. split; reflexivity. Qed.

Example archive_unknown_item :
  fst (archiveMediaItem Sim.env "zz" (Sim.fresh Sim.start))
  = Rejected (Error "Failed to archive media item").
Proof. reflexivity. Qed.

Example delete_is_refused :
  fst (deleteMediaItem Sim.env "a" (Sim.fresh Sim.start))
  = Rejected (Error "Failed to delete media item").
Proof. reflexivity. Qed.

Example list_attempt_unauthorized :
  fst (list_attempt Sim.env "tok-1"
         (Sim.fresh (Sim.with_catalog (Resolved JNull) Sim.revoked)))
  = Rejected (Error "Authentication expired, please try again").
Proof. reflexivity. Qed.

Example template_of_array :
  to_js_string (JArr [JNum 1; JNull; JStr "x"; JArr [JBool true; JObj []]])
  = Some "1,,x,true,[object Object]".
Proof. reflexivity. Qed.

(** ** Facts about token acquisition *)

Section TokenFacts.

Context {Ext : Type}.
Variable env : Env Ext.

Lemma truthy_string_nonempty (s : string) : truthy_string s = true <-> s <> "".
Proof.
  unfold truthy_string. destruct (String.eqb_spec s ""); simpl; split; congruence.
Qed.

Lemma getAccessToken_no_session (w : World Ext) :
  currentUser env (ext w) = None ->
  getAccessToken env w = (Resolved None, w).
Proof. intros H. unfold getAccessToken. now rewrite H. Qed.

Lemma getAccessToken_cache_hit (w : World Ext) (user : User) :
  currentUser env (ext w) = Some user ->
  cache_valid env w = true ->
  getAccessToken env w = (Resolved (cachedToken w), w).
Proof. intros Hu Hc. unfold getAccessToken. now rewrite Hu, Hc. Qed.

Lemma getAccessToken_cache_miss (w : World Ext) (user : User) :
  currentUser env (ext w) = Some user ->
  cache_valid env w = false ->
  getAccessToken env w =
    try_catch (acquire_token env user)
      (fun error =>
         bind (console_error "Error getting access token:" (LoggedExn error))
              (fun _ => throw (Error "Failed to get access token"))) w.
Proof. intros Hu Hc. unfold getAccessToken. now rewrite Hu, Hc. Qed.

Lemma http_requests_app (t1 t2 : list Event) :
  http_requests (t1 ++ t2) = http_requests t1 ++ http_requests t2.
Proof. unfold http_requests. apply omap_app. Qed.

(** Every way out of the [try] block of [getAccessToken]: a returned token
    is non-empty and has just been cached for one hour, a failure leaves
    the cache alone, and the first call made is the silent retrieval. *)
Lemma acquire_token_spec (user : User) (w : World Ext) :
  forall r w', acquire_token env user w = (r, w') ->
    match r with
    | Resolved (Some t) =>
        truthy_string t = true /\ cachedToken w' = Some t /\
        tokenExpiry w' = Some (now env (ext w') + 3600000)
    | Resolved None => False
    | Rejected _ => cachedToken w' = cachedToken w /\ tokenExpiry w' = tokenExpiry w
    end /\
    http_requests (trace w') = http_requests (trace w) /\
    exists evs, trace w' = trace w ++ EvGetIdTokenResult user true :: evs.
Proof.
  intros r w'.
  unfold acquire_token, cache_and_return, bind, await, date_now, set_cache, ret, throw.
  intros H.
  repeat case_match; simplify_eq; simpl.
  all: rewrite ?http_requests_app; simpl; rewrite ?app_nil_r.
  all: repeat split; eauto.
  all: try (rewrite <- ?app_assoc; simpl; eexists; reflexivity).
Qed.

Lemma cache_valid_token (w : World Ext) :
  cache_valid env w = true ->
  exists t e, cachedToken w = Some t /\ tokenExpiry w = Some e /\
              truthy_string t = true /\ now env (ext w) < e.
Proof.
  unfold cache_valid. destruct (cachedToken w) as [t|], (tokenExpiry w) as [e|]; try discriminate.
  intros H. apply andb_prop in H as [H He]. apply andb_prop in H as [Ht _].
  exists t, e. repeat split; auto. now apply Z.ltb_lt.
Qed.

(** What a call of [getAccessToken] can do, whatever the environment. *)
Lemma getAccessToken_spec (w : World Ext) :
  forall r w', getAccessToken env w = (r, w') ->
    http_requests (trace w') = http_requests (trace w) /\
    match r with
    | Resolved (Some t) =>
        truthy_string t = true /\ cachedToken w' = Some t /\
        exists e, tokenExpiry w' = Some e
    | Resolved None => w' = w /\ currentUser env (ext w) = None
    | Rejected e =>
        e = Error "Failed to get access token" /\
        cachedToken w' = cachedToken w /\ tokenExpiry w' = tokenExpiry w
    end.
Proof.
  intros r w'. unfold getAccessToken.
  destruct (currentUser env (ext w)) as [user|] eqn:Hu.
  - destruct (cache_valid env w) eqn:Hc.
    + destruct (cache_valid_token w Hc) as (t & e & Ht & He & Htr & _).
      unfold ret. intros H. injection H as <- <-.
      rewrite Ht. eauto 6.
    + unfold try_catch.
      destruct (acquire_token env user w) as [r0 w0] eqn:Ha.
      pose proof (acquire_token_spec user w _ _ Ha) as (Hr & Hh & _).
      destruct r0 as [[t|]|e0].
      * intros H; simplify_eq. destruct Hr as (? & ? & ?). eauto 7.
      * contradiction.
      * unfold bind, console_error, throw. intros H; simplify_eq. simpl.
        rewrite http_requests_app, Hh. simpl. rewrite app_nil_r.
        destruct Hr. auto.
  - unfold ret. intros H. injection H as <- <-. auto.
Qed.

End TokenFacts.

(** ** The credential cache *)

Section CredentialCache.

Context {Ext : Type}.
Variable env : Env Ext.

(** C4.  Without an authenticated session every operation rejects with
    "Not authenticated", whatever the token cache holds, and leaves the
    world exactly as it found it: no HTTP request (indeed no call at all)
    is issued and the cache is not touched. *)
Theorem no_session_not_authenticated (w : World Ext) (mediaItemId : string) :
  currentUser env (ext w) = None ->
  listMediaItems env w = (Rejected (Error "Not authenticated"), w) /\
  favoriteMediaItem env mediaItemId w = (Rejected (Error "Not authenticated"), w) /\
  archiveMediaItem env mediaItemId w = (Rejected (Error "Not authenticated"), w) /\
  deleteMediaItem env mediaItemId w = (Rejected (Error "Not authenticated"), w).
Proof.
  intros Hu.
  unfold listMediaItems, favoriteMediaItem, archiveMediaItem, deleteMediaItem, bind.
  rewrite (getAccessToken_no_session env w Hu). simpl. auto.
Qed.

(** C5.  With a session and a cached token that has not expired,
    [getAccessToken] returns the cached token and the world is unchanged:
    nothing was called and nothing was logged.  The cache never holds
    the empty string (see [getAccessToken_keeps_cache_wf] and its
    companions), and the clock counts milliseconds since the epoch. *)
Theorem cached_token_returned_without_io (w : World Ext) (user : User) (t : string) (e : Z) :
  currentUser env (ext w) = Some user ->
  cachedToken w = Some t -> t <> "" ->
  tokenExpiry w = Some e ->
  0 <= now env (ext w) < e ->
  getAccessToken env w = (Resolved (Some t), w).
Proof.
  intros Hu Ht Hne He Hnow.
  rewrite (getAccessToken_cache_hit env w user Hu), Ht; [reflexivity|].
  unfold cache_valid. rewrite Ht, He.
  apply truthy_string_nonempty in Hne. rewrite Hne. simpl.
  unfold truthy_number.
  destruct (Z.eqb_spec e 0); [lia|]. simpl. apply Z.ltb_lt. lia.
Qed.

End CredentialCache.

Lemma no_session_not_authenticated_witness :
  let w := Sim.cached "tok-1" 3601000 Sim.signed_out in
  cache_valid Sim.env w = true /\
  listMediaItems Sim.env w = (Rejected (Error "Not authenticated"), w) /\
  favoriteMediaItem Sim.env "a" w = (Rejected (Error "Not authenticated"), w) /\
  archiveMediaItem Sim.env "a" w = (Rejected (Error "Not authenticated"), w) /\
  deleteMediaItem Sim.env "a" w = (Rejected (Error "Not authenticated"), w).
Proof.
  split; [reflexivity|].
  apply (no_session_not_authenticated Sim.env). reflexivity.
Defined.

Lemma cached_token_returned_without_io_witness :
  let w := Sim.cached "tok-1" 3601000 Sim.start in
  getAccessToken Sim.env w = (Resolved (Some "tok-1"), w).
Proof.
  apply (cached_token_returned_without_io Sim.env _ Sim.alice "tok-1" 3601000);
    [reflexivity | reflexivity | discriminate | reflexivity | simpl; lia].
Defined.

(** ** The operations: how they start and how they fail *)

Section Operations.

Context {Ext : Type}.
Variable env : Env Ext.

Lemma require_token_truthy (t : string) :
  truthy_string t = true -> require_token (Ext := Ext) (Some t) = ret t.
Proof. intros H. unfold require_token. now rewrite H. Qed.

(** Once a token has been obtained, an operation is its [try] block
    followed by its [catch] clause. *)
Lemma with_token {A} (attempt : string -> M Ext A) (handler : Exn -> M Ext A)
    (w w0 : World Ext) (token : string) :
  getAccessToken env w = (Resolved (Some token), w0) ->
  bind (getAccessToken env)
       (fun t => bind (require_token t) (fun t => try_catch (attempt t) handler)) w
  = try_catch (attempt token) handler w0.
Proof.
  intros Hg. unfold bind at 1. rewrite Hg.
  destruct (getAccessToken_spec env w _ _ Hg) as (_ & Ht & _).
  rewrite (require_token_truthy _ Ht). reflexivity.
Qed.

(** A failed token acquisition ends the operation on the spot. *)
Lemma without_token {A} (k : option string -> M Ext A) (w w0 : World Ext) (e : Exn) :
  getAccessToken env w = (Rejected e, w0) ->
  bind (getAccessToken env) k w = (Rejected e, w0).
Proof. intros Hg. unfold bind. now rewrite Hg. Qed.

(** C3.  When the list request is answered with status 401,
    [listMediaItems] empties both cache variables and rejects with
    "Authentication expired, please try again".  In every later world
    whose cache is still as this call left it, [getAccessToken] cannot
    take the cached-token branch, and with a session present the first
    thing it does is ask the identity provider for a fresh token. *)
Theorem list_unauthorized_clears_cache
    (w w0 : World Ext) (token : string) (resp : Response) (s1 : Ext) :
  getAccessToken env w = (Resolved (Some token), w0) ->
  fetch env (list_request token) (ext w0) = (Resolved resp, s1) ->
  status resp = 401 ->
  exists w',
    listMediaItems env w
      = (Rejected (Error "Authentication expired, please try again"), w') /\
    cachedToken w' = None /\ tokenExpiry w' = None /\ ext w' = s1 /\
    forall w2 : World Ext,
      cachedToken w2 = cachedToken w' -> tokenExpiry w2 = tokenExpiry w' ->
      cache_valid env w2 = false /\
      forall user, currentUser env (ext w2) = Some user ->
        exists r w3 evs,
          getAccessToken env w2 = (r, w3) /\
          trace w3 = trace w2 ++ EvGetIdTokenResult user true :: evs.
Proof.
  intros Hg Hf Hs.
  unfold listMediaItems. rewrite (with_token _ _ _ _ _ Hg).
  unfold try_catch, list_attempt, bind, await. rewrite Hf.
  unfold ok. rewrite Hs. simpl.
  eexists. split; [reflexivity|]. simpl.
  split; [reflexivity|]. split; [reflexivity|]. split; [reflexivity|].
  intros w2 Hc2 _.
  assert (Hc : cache_valid env w2 = false) by (unfold cache_valid; now rewrite Hc2).
  split; [exact Hc|].
  intros user Hu.
  rewrite (getAccessToken_cache_miss env w2 user Hu Hc).
  unfold try_catch.
  destruct (acquire_token env user w2) as [r0 w3] eqn:Ha.
  destruct (acquire_token_spec env user w2 _ _ Ha) as (_ & _ & evs & Ht).
  destruct r0 as [a|e].
  - eauto.
  - unfold bind, console_error, throw. simpl.
    do 3 eexists. split; [reflexivity|]. simpl.
    rewrite Ht, <- app_assoc. reflexivity.
Qed.

End Operations.

Lemma list_unauthorized_clears_cache_witness :
  let w := Sim.cached "tok-1" 3601000 Sim.revoked in
  exists w',
    listMediaItems Sim.env w
      = (Rejected (Error "Authentication expired, please try again"), w') /\
    cachedToken w' = None /\ tokenExpiry w' = None /\ ext w' = Sim.tick Sim.revoked /\
    forall w2 : World Sim.State,
      cachedToken w2 = cachedToken w' -> tokenExpiry w2 = tokenExpiry w' ->
      cache_valid Sim.env w2 = false /\
      forall user, currentUser Sim.env (ext w2) = Some user ->
        exists r w3 evs,
          getAccessToken Sim.env w2 = (r, w3) /\
          trace w3 = trace w2 ++ EvGetIdTokenResult user true :: evs.
Proof.
  apply (list_unauthorized_clears_cache Sim.env _
           (Sim.cached "tok-1" 3601000 Sim.revoked) "tok-1"
           (Sim.respond 401 "Unauthorized" (Resolved (JObj []))));
    reflexivity.
Defined.

Section Mutations.

Context {Ext : Type}.
Variable env : Env Ext.

Lemma archive_is_mutation (mediaItemId : string) :
  archiveMediaItem env mediaItemId =
  mutation env (batchModify_request "archive" mediaItemId)
    "Error archiving media item:" "Failed to archive media item".
Proof. reflexivity. Qed.

Lemma favorite_is_mutation (mediaItemId : string) :
  favoriteMediaItem env mediaItemId =
  mutation env (batchModify_request "favorite" mediaItemId)
    "Error favoriting media item:" "Failed to favorite media item".
Proof. reflexivity. Qed.

Lemma delete_is_mutation (mediaItemId : string) :
  deleteMediaItem env mediaItemId =
  mutation env (delete_request mediaItemId)
    "Error deleting media item:" "Failed to delete media item".
Proof. reflexivity. Qed.

(** The [try] block of a mutation sends its one request, never writes the
    cache, and succeeds exactly when the response is a success. *)
Lemma mutation_attempt_spec (req : Request) (failure : string) (w : World Ext) :
  forall r w', mutation_attempt env req failure w = (r, w') ->
    cachedToken w' = cachedToken w /\ tokenExpiry w' = tokenExpiry w /\
    ext w' = snd (fetch env req (ext w)) /\
    http_requests (trace w') = http_requests (trace w) ++ [req] /\
    match fst (fetch env req (ext w)) with
    | Resolved resp => r = if ok resp then Resolved tt else Rejected (Error failure)
    | Rejected e => r = Rejected e
    end.
Proof.
  intros r w'. unfold mutation_attempt, bind, await, console_error, throw, ret.
  destruct (fetch env req (ext w)) as [[resp|e] s1]; simpl.
  - destruct (ok resp); simpl; intros H; injection H as <- <-; simpl;
      rewrite ?http_requests_app; simpl; rewrite ?app_nil_r; auto.
  - intros H; injection H as <- <-; simpl. rewrite http_requests_app. auto.
Qed.

(** A complete account of a mutation, by the outcome of the token
    acquisition and of the request. *)
Lemma mutation_spec (req : string -> Request) (label failure : string) (w : World Ext) :
  forall r w', mutation env req label failure w = (r, w') ->
    match getAccessToken env w with
    | (Resolved (Some token), w0) =>
        cachedToken w' = cachedToken w0 /\ tokenExpiry w' = tokenExpiry w0 /\
        ext w' = snd (fetch env (req token) (ext w0)) /\
        http_requests (trace w') = http_requests (trace w) ++ [req token] /\
        match fst (fetch env (req token) (ext w0)) with
        | Resolved resp => r = if ok resp then Resolved tt else Rejected (Error failure)
        | Rejected _ => r = Rejected (Error failure)
        end
    | (Resolved None, _) => r = Rejected (Error "Not authenticated") /\ w' = w
    | (Rejected e, w0) => r = Rejected e /\ w' = w0
    end.
Proof.
  intros r w'. unfold mutation.
  destruct (getAccessToken env w) as [[[token|]|e] w0] eqn:Hg.
  - rewrite (with_token env _ _ _ _ _ Hg).
    destruct (getAccessToken_spec env w _ _ Hg) as (Hh & _).
    unfold try_catch.
    destruct (mutation_attempt env (req token) failure w0) as [r1 w1] eqn:Ha.
    destruct (mutation_attempt_spec _ _ _ _ _ Ha) as (Hc & He & Hx & Ht & Hr).
    rewrite Hh in Ht.
    destruct r1 as [[]|e1].
    + intros H; injection H as <- <-. repeat split; auto.
      destruct (fst (fetch env (req token) (ext w0))) as [resp|]; [|discriminate].
      destruct (ok resp); [reflexivity | discriminate].
    + unfold bind, console_error, throw. intros H; injection H as <- <-. simpl.
      rewrite http_requests_app. simpl. rewrite app_nil_r. repeat split; auto.
      destruct (fst (fetch env (req token) (ext w0))) as [resp|]; [|reflexivity].
      destruct (ok resp); [discriminate | reflexivity].
  - destruct (getAccessToken_spec env w _ _ Hg) as (_ & -> & _).
    unfold bind. rewrite Hg. simpl. unfold throw. intros H; injection H as <- <-. auto.
  - rewrite (without_token env _ _ _ _ Hg). intros H; injection H as <- <-. auto.
Qed.

(** Whatever the response, 401 included, a mutation leaves the token it
    used in the cache. *)
Lemma mutation_keeps_token (req : string -> Request) (label failure : string)
    (w w0 w' : World Ext) (token : string) (r : Settled unit) :
  getAccessToken env w = (Resolved (Some token), w0) ->
  mutation env req label failure w = (r, w') ->
  cachedToken w' = Some token /\ tokenExpiry w' = tokenExpiry w0.
Proof.
  intros Hg Hm. pose proof (mutation_spec req label failure w _ _ Hm) as Hs.
  rewrite Hg in Hs. destruct Hs as (Hc & He & _).
  destruct (getAccessToken_spec env w _ _ Hg) as (_ & _ & Ht & _).
  split; congruence.
Qed.

Lemma getAccessToken_keeps_cache_wf (w : World Ext) :
  cache_wf w -> cache_wf (snd (getAccessToken env w)).
Proof.
  intros Hwf. destruct (getAccessToken env w) as [r w'] eqn:Hg. simpl.
  destruct (getAccessToken_spec env w _ _ Hg) as (_ & Hs).
  destruct r as [[t|]|e].
  - destruct Hs as (Ht & Hc & _). intros t' Ht'. rewrite Hc in Ht'.
    injection Ht' as <-. now apply truthy_string_nonempty.
  - destruct Hs as [-> _]. exact Hwf.
  - destruct Hs as (_ & Hc & _). intros t' Ht'. rewrite Hc in Ht'. now apply Hwf.
Qed.

Lemma mutation_keeps_cache_wf (req : string -> Request) (label failure : string)
    (w : World Ext) :
  cache_wf w -> cache_wf (snd (mutation env req label failure w)).
Proof.
  intros Hwf. destruct (mutation env req label failure w) as [r w'] eqn:Hm. simpl.
  pose proof (mutation_spec req label failure w _ _ Hm) as Hs.
  pose proof (getAccessToken_keeps_cache_wf w Hwf) as Hwf0.
  destruct (getAccessToken env w) as [[[token|]|e] w0]; simpl in Hwf0.
  - destruct Hs as (Hc & _). intros t Ht. rewrite Hc in Ht. now apply Hwf0.
  - destruct Hs as [_ ->]. exact Hwf.
  - destruct Hs as [_ ->]. exact Hwf0.
Qed.

End Mutations.

(** ** Error propagation *)

Section Propagation.

Context {Ext : Type}.
Variable env : Env Ext.

(** The [try] block of [listMediaItems] sends exactly one request. *)
Lemma list_attempt_requests (token : string) (w : World Ext) :
  forall r w', list_attempt env token w = (r, w') ->
    http_requests (trace w') = http_requests (trace w) ++ [list_request token] /\
    ext w' = snd (fetch env (list_request token) (ext w)).
Proof.
  intros r w'.
  unfold list_attempt, bind, await, console_error, set_cache, settle, throw, ret.
  destruct (fetch env (list_request token) (ext w)) as [[resp|e] s1]; simpl.
  - intros H. repeat case_match; simplify_eq; simpl;
      rewrite ?http_requests_app; simpl; rewrite ?app_nil_r; auto.
  - intros H; injection H as <- <-; simpl. rewrite http_requests_app. auto.
Qed.

(** The [try] block of [listMediaItems] either leaves the cache alone or
    empties it. *)
Lemma list_attempt_cache (token : string) (w : World Ext) :
  forall r w', list_attempt env token w = (r, w') ->
    cachedToken w' = cachedToken w \/ cachedToken w' = None.
Proof.
  intros r w'.
  unfold list_attempt, bind, await, console_error, set_cache, settle, throw, ret.
  destruct (fetch env (list_request token) (ext w)) as [[resp|e] s1]; simpl.
  - intros H. repeat case_match; simplify_eq; simpl; auto.
  - intros H; injection H as <- <-; simpl. auto.
Qed.

Lemma list_keeps_cache_wf (w : World Ext) :
  cache_wf w -> cache_wf (snd (listMediaItems env w)).
Proof.
  intros Hwf. pose proof (getAccessToken_keeps_cache_wf env w Hwf) as Hwf0.
  destruct (getAccessToken env w) as [[[token|]|e] w0] eqn:Hg; simpl in Hwf0.
  - unfold listMediaItems. rewrite (with_token env _ _ _ _ _ Hg). unfold try_catch.
    destruct (list_attempt env token w0) as [r1 w1] eqn:Ha.
    pose proof (list_attempt_cache _ _ _ _ Ha) as Hc.
    assert (Hwf1 : cache_wf w1).
    { intros t Ht. destruct Hc as [Hc|Hc]; rewrite Hc in Ht; [now apply Hwf0|discriminate]. }
    destruct r1; simpl; exact Hwf1.
  - unfold listMediaItems, bind. rewrite Hg. simpl.
    destruct (getAccessToken_spec env w _ _ Hg) as (_ & -> & _). exact Hwf.
  - unfold listMediaItems. now rewrite (without_token env _ _ _ _ Hg).
Qed.

Lemma list_short_circuits : token_failure_short_circuits env (listMediaItems env).
Proof.
  intros w w0 e Hg. split.
  - unfold listMediaItems. apply (without_token env _ _ _ _ Hg).
  - apply (getAccessToken_spec env w _ _ Hg).
Qed.

Lemma list_errors_unchanged :
  attempt_errors_surface_unchanged env (listMediaItems env) (list_attempt env).
Proof.
  intros w w0 w1 token e Hg Ha.
  unfold listMediaItems. rewrite (with_token env _ _ _ _ _ Hg).
  unfold try_catch. rewrite Ha. reflexivity.
Qed.

Lemma list_one_request : at_most_one_request (listMediaItems env).
Proof.
  intros w.
  destruct (getAccessToken env w) as [[[token|]|e] w0] eqn:Hg.
  - unfold listMediaItems. rewrite (with_token env _ _ _ _ _ Hg).
    destruct (getAccessToken_spec env w _ _ Hg) as (Hh & _).
    unfold try_catch.
    destruct (list_attempt env token w0) as [r1 w1] eqn:Ha.
    destruct (list_attempt_requests _ _ _ _ Ha) as (Ht & _). rewrite Hh in Ht.
    exists [list_request token]. split; [|simpl; lia].
    destruct r1; simpl; [exact Ht|].
    rewrite http_requests_app. simpl. now rewrite app_nil_r.
  - exists []. unfold listMediaItems, bind. rewrite Hg. simpl.
    destruct (getAccessToken_spec env w _ _ Hg) as (_ & -> & _).
    rewrite app_nil_r. split; [reflexivity | simpl; lia].
  - exists []. unfold listMediaItems. rewrite (without_token env _ _ _ _ Hg). simpl.
    rewrite app_nil_r. split; [|simpl; lia].
    apply (getAccessToken_spec env w _ _ Hg).
Qed.

Lemma mutation_short_circuits (req : string -> Request) (label failure : string) :
  token_failure_short_circuits env (mutation env req label failure).
Proof.
  intros w w0 e Hg. split.
  - unfold mutation. apply (without_token env _ _ _ _ Hg).
  - apply (getAccessToken_spec env w _ _ Hg).
Qed.

Lemma mutation_errors_replaced (req : string -> Request) (label failure : string) :
  attempt_errors_surface_as env (Error failure) (mutation env req label failure)
    (fun token => mutation_attempt env (req token) failure).
Proof.
  intros w w0 w1 token e Hg Ha.
  unfold mutation. rewrite (with_token env _ _ _ _ _ Hg).
  unfold try_catch. rewrite Ha. reflexivity.
Qed.

Lemma mutation_one_request (req : string -> Request) (label failure : string) :
  at_most_one_request (mutation env req label failure).
Proof.
  intros w.
  destruct (mutation env req label failure w) as [r w'] eqn:Hm.
  pose proof (mutation_spec env req label failure w _ _ Hm) as Hs. simpl.
  destruct (getAccessToken env w) as [[[token|]|e] w0] eqn:Hg.
  - destruct Hs as (_ & _ & _ & Ht & _). exists [req token]. split; [exact Ht | simpl; lia].
  - destruct Hs as [_ ->]. exists []. rewrite app_nil_r. split; [reflexivity | simpl; lia].
  - destruct Hs as [_ ->]. exists []. rewrite app_nil_r. split; [|simpl; lia].
    apply (getAccessToken_spec env w _ _ Hg).
Qed.

(** C2, as amended.  A failure of [getAccessToken] ends each of the four
    operations at once, before any HTTP request, and reaches the caller as
    the same error.  In [listMediaItems] every error raised in the [try]
    block reaches the caller unchanged.  In [favoriteMediaItem],
    [archiveMediaItem] and [deleteMediaItem] every error raised in the
    [try] block reaches the caller as the operation's own fixed error.
    No operation retries: a call issues at most one HTTP request. *)
Theorem errors_reach_the_caller (mediaItemId : string) :
  (token_failure_short_circuits env (listMediaItems env) /\
   token_failure_short_circuits env (favoriteMediaItem env mediaItemId) /\
   token_failure_short_circuits env (archiveMediaItem env mediaItemId) /\
   token_failure_short_circuits env (deleteMediaItem env mediaItemId)) /\
  attempt_errors_surface_unchanged env (listMediaItems env) (list_attempt env) /\
  (attempt_errors_surface_as env (Error "Failed to favorite media item")
     (favoriteMediaItem env mediaItemId) (favorite_attempt env mediaItemId) /\
   attempt_errors_surface_as env (Error "Failed to archive media item")
     (archiveMediaItem env mediaItemId) (archive_attempt env mediaItemId) /\
   attempt_errors_surface_as env (Error "Failed to delete media item")
     (deleteMediaItem env mediaItemId) (delete_attempt env mediaItemId)) /\
  (at_most_one_request (listMediaItems env) /\
   at_most_one_request (favoriteMediaItem env mediaItemId) /\
   at_most_one_request (archiveMediaItem env mediaItemId) /\
   at_most_one_request (deleteMediaItem env mediaItemId)).
Proof.
  split; [|split; [|split]].
  - split; [apply list_short_circuits|].
    split; [|split]; apply mutation_short_circuits.
  - apply list_errors_unchanged.
  - split; [|split].
    + apply (mutation_errors_replaced (batchModify_request "favorite" mediaItemId)
               "Error favoriting media item:").
    + apply (mutation_errors_replaced (batchModify_request "archive" mediaItemId)
               "Error archiving media item:").
    + apply (mutation_errors_replaced (delete_request mediaItemId)
               "Error deleting media item:").
  - split; [apply list_one_request|].
    split; [|split]; apply mutation_one_request.
Qed.

End Propagation.

(** C2, as stated, fails for the mutations.  With the network down,
    [fetch] rejects with a [TypeError]; [archiveMediaItem] rejects with
    its own "Failed to archive media item" instead. *)
Lemma archive_replaces_the_error :
  ~ attempt_errors_surface_unchanged Sim.env
      (archiveMediaItem Sim.env "a") (archive_attempt Sim.env "a").
Proof.
  intros H.
  specialize (H (Sim.cached "tok-1" 3601000 Sim.offline) _ _ "tok-1" _ eq_refl eq_refl).
  discriminate H.
Qed.

Lemma errors_reach_the_caller_witness :
  let w := Sim.cached "tok-1" 3601000 Sim.offline in
  fst (listMediaItems Sim.env w) = Rejected (Foreign "TypeError" "Failed to fetch") /\
  fst (favoriteMediaItem Sim.env "a" w) = Rejected (Error "Failed to favorite media item").
Proof.
  destruct (errors_reach_the_caller Sim.env "a") as (_ & Hlist & (Hfav & _) & _).
  split.
  - apply (Hlist (Sim.cached "tok-1" 3601000 Sim.offline) _ _ "tok-1" _ eq_refl eq_refl).
  - apply (Hfav (Sim.cached "tok-1" 3601000 Sim.offline) _ _ "tok-1"
             (Foreign "TypeError" "Failed to fetch") eq_refl eq_refl).
Defined.

(** C1.  The remote answers every request that carries the cached token
    with 401.  [listMediaItems] empties the cache; [favoriteMediaItem],
    [archiveMediaItem] and [deleteMediaItem] reject and leave the refused
    token and its expiry in the cache. *)
Theorem mutations_keep_the_refused_token :
  let w := Sim.cached "tok-1" 3601000 Sim.revoked in
  let cache (w' : World Sim.State) := (cachedToken w', tokenExpiry w') in
  (forall req, headers req = auth_headers "tok-1" ->
     exists resp, fst (fetch Sim.env req (ext w)) = Resolved resp /\ status resp = 401) /\
  cache (snd (listMediaItems Sim.env w)) = (None, None) /\
  favoriteMediaItem Sim.env "a" w
    = (Rejected (Error "Failed to favorite media item"),
       snd (favoriteMediaItem Sim.env "a" w)) /\
  cache (snd (favoriteMediaItem Sim.env "a" w)) = (Some "tok-1", Some 3601000) /\
  cache (snd (archiveMediaItem Sim.env "a" w)) = (Some "tok-1", Some 3601000) /\
  cache (snd (deleteMediaItem Sim.env "a" w)) = (Some "tok-1", Some 3601000).
Proof.
  simpl. split; [|repeat split].
  intros req Hh. unfold Sim.serve, Sim.authorized. rewrite Hh. simpl. eauto.
Qed.

(** ** Acquiring a token on a cache miss *)

Section Acquisition.

Context {Ext : Type}.
Variable env : Env Ext.

Ltac run_monad :=
  unfold cache_and_return, bind, await, date_now, set_cache, console_error,
    settle, ret, throw; simpl.

Ltac popup_case user s :=
  destruct (reauthenticateWithPopup env user [photoslibrary_scope] s)
    as [[userCred|?] ?]; simpl;
  [ destruct (access_token_of userCred) as [t|]; [destruct (truthy_string t)|] | ];
  run_monad;
  (intros H; injection H as <- <-; simpl; rewrite <- ?app_assoc;
   repeat split; auto; apply in_or_app; right; simpl; auto).

(** The [try] block of [getAccessToken], by the outcome of the silent
    retrieval. *)
Lemma acquire_token_by_outcome (user : User) (w : World Ext) :
  forall o s r w',
    silent_outcome env user (ext w) = (o, s) ->
    acquire_token env user w = (r, w') ->
    match o with
    | SilentToken t =>
        r = Resolved (Some t) /\ ext w' = s
    | WrongProvider | SilentEmpty =>
        In (EvReauthenticate user [photoslibrary_scope]) (trace w') /\
        ext w' = snd (reauthenticateWithPopup env user [photoslibrary_scope] s) /\
        match fst (reauthenticateWithPopup env user [photoslibrary_scope] s) with
        | Resolved userCred =>
            match access_token_of userCred with
            | Some t =>
                r = if truthy_string t then Resolved (Some t)
                    else Rejected (Error "Failed to get access token")
            | None => r = Rejected (Error "Failed to get access token")
            end
        | Rejected e => r = Rejected e
        end
    | SilentRejected e =>
        r = Rejected e /\ ext w' = s /\
        exists evs, trace w' = trace w ++ evs /\
                    ~ In (EvReauthenticate user [photoslibrary_scope]) evs
    end.
Proof.
  intros o s r w'. unfold silent_outcome, acquire_token. run_monad.
  destruct (getIdTokenResult env user true (ext w)) as [[result|e] s1]; simpl.
  - destruct (is_google (provider_of result)); simpl.
    + destruct (getIdToken env user s1) as [[credential|e] s2]; simpl.
      * destruct (truthy_string credential); intros Ho; injection Ho as <- <-.
        -- simpl. intros H; injection H as <- <-. auto.
        -- simpl. popup_case user s2.
      * intros Ho H; injection Ho as <- <-; injection H as <- <-. simpl.
        repeat split; auto. rewrite <- app_assoc. eexists; split; [reflexivity|].
        simpl. intuition discriminate.
    + intros Ho; injection Ho as <- <-. popup_case user s1.
  - intros Ho H; injection Ho as <- <-; injection H as <- <-. simpl.
    repeat split; auto. eexists; split; [reflexivity|].
    simpl. intuition discriminate.
Qed.

End Acquisition.

Section AcquisitionClaims.

Context {Ext : Type}.
Variable env : Env Ext.

(** On a cache miss, [getAccessToken] is [acquire_token] with at most a
    log entry appended and the error replaced. *)
Lemma getAccessToken_miss_inv (w : World Ext) (user : User) :
  currentUser env (ext w) = Some user ->
  cache_valid env w = false ->
  forall r0 w0, acquire_token env user w = (r0, w0) ->
    exists log,
      trace (snd (getAccessToken env w)) = trace w0 ++ log /\
      ext (snd (getAccessToken env w)) = ext w0 /\
      cachedToken (snd (getAccessToken env w)) = cachedToken w0 /\
      tokenExpiry (snd (getAccessToken env w)) = tokenExpiry w0 /\
      match r0 with
      | Resolved a => fst (getAccessToken env w) = Resolved a /\ log = []
      | Rejected _ =>
          fst (getAccessToken env w) = Rejected (Error "Failed to get access token")
      end.
Proof.
  intros Hu Hc r0 w0 Ha.
  rewrite (getAccessToken_cache_miss env w user Hu Hc).
  unfold try_catch. rewrite Ha.
  destruct r0 as [a|e]; simpl.
  - exists []. rewrite app_nil_r. repeat split; reflexivity.
  - eexists. repeat split; reflexivity.
Qed.

Lemma falls_back_when_no_token :
  falls_back_on env (fun o => o = WrongProvider \/ o = SilentEmpty).
Proof.
  intros w user o s Hu Hc Ho Hout.
  destruct (acquire_token env user w) as [r0 w0] eqn:Ha.
  destruct (getAccessToken_miss_inv w user Hu Hc _ _ Ha) as (log & -> & _).
  pose proof (acquire_token_by_outcome env user w _ _ _ _ Ho Ha) as Hs.
  apply in_or_app. left.
  destruct Hout as [-> | ->]; apply Hs.
Qed.

(** C6, as amended.  On a cache miss with a session, the first call
    [getAccessToken] makes is the silent retrieval
    [user.getIdTokenResult(true)].  Whenever the session was not opened
    through Google, or the silent retrieval resolves with an empty token,
    the re-authentication popup is opened.  A token returned by either
    path is in the cache, and its expiry is the clock reading of the
    outside world as the acquiring call left it plus 3600000 ms. *)
Theorem token_acquisition_on_miss :
  falls_back_on env (fun o => o = WrongProvider \/ o = SilentEmpty) /\
  forall (w : World Ext) (user : User),
    currentUser env (ext w) = Some user ->
    cache_valid env w = false ->
    (exists evs, trace (snd (getAccessToken env w))
                 = trace w ++ EvGetIdTokenResult user true :: evs) /\
    forall t w', getAccessToken env w = (Resolved (Some t), w') ->
      cachedToken w' = Some t /\
      tokenExpiry w' = Some (now env (ext w') + 3600000) /\
      forall o s, silent_outcome env user (ext w) = (o, s) ->
        (o = SilentToken t /\ ext w' = s) \/
        ((o = WrongProvider \/ o = SilentEmpty) /\
         exists userCred,
           reauthenticateWithPopup env user [photoslibrary_scope] s
             = (Resolved userCred, ext w') /\
           access_token_of userCred = Some t).
Proof.
  split; [apply falls_back_when_no_token|].
  intros w user Hu Hc.
  destruct (acquire_token env user w) as [r0 w0] eqn:Ha.
  destruct (getAccessToken_miss_inv w user Hu Hc _ _ Ha)
    as (log & Ht & Hx & Hct & Hce & Hr).
  destruct (acquire_token_spec env user w _ _ Ha) as (Hcache & _ & evs & Hevs).
  split.
  - rewrite Ht, Hevs, <- app_assoc. simpl. eauto.
  - intros t w' Hg. rewrite Hg in *. simpl in *.
    destruct r0 as [a|e]; [|discriminate].
    destruct Hr as [Hr _]. injection Hr as Hr. subst a.
    simpl in Hcache. destruct Hcache as (_ & Hc1 & Hc2).
    split; [congruence|]. split; [congruence|].
    intros o s Ho.
    pose proof (acquire_token_by_outcome env user w _ _ _ _ Ho Ha) as Hs.
    destruct o as [t'| | |e].
    + left. destruct Hs as [Hs1 Hs2]. split; congruence.
    + right. split; [auto|]. destruct Hs as (_ & Hs2 & Hs3).
      destruct (reauthenticateWithPopup env user [photoslibrary_scope] s)
        as [[userCred|e] s'] eqn:Hp; simpl in *; [|discriminate].
      destruct (access_token_of userCred) as [t'|] eqn:Hat; [|discriminate].
      destruct (truthy_string t'); [|discriminate].
      exists userCred. split; congruence.
    + right. split; [auto|]. destruct Hs as (_ & Hs2 & Hs3).
      destruct (reauthenticateWithPopup env user [photoslibrary_scope] s)
        as [[userCred|e] s'] eqn:Hp; simpl in *; [|discriminate].
      destruct (access_token_of userCred) as [t'|] eqn:Hat; [|discriminate].
      destruct (truthy_string t'); [|discriminate].
      exists userCred. split; congruence.
    + destruct Hs; discriminate.
Qed.

End AcquisitionClaims.

(** C6, as stated, fails when the silent retrieval fails by rejecting:
    with the identity provider unreachable, [getIdTokenResult] rejects and
    [getAccessToken] rejects in turn without opening the popup. *)
Lemma no_fallback_when_provider_unreachable :
  ~ falls_back_on Sim.env (fun o => forall t, o <> SilentToken t).
Proof.
  intros H.
  specialize (H (Sim.fresh Sim.idp_down) Sim.alice _ _ eq_refl eq_refl eq_refl).
  simpl in H.
  assert (Hin : forall t : string,
             SilentRejected (Foreign "FirebaseError" "auth/network-request-failed")
             <> SilentToken t) by discriminate.
  specialize (H Hin). vm_compute in H. intuition discriminate.
Qed.

Lemma token_acquisition_on_miss_witness :
  let w := Sim.fresh Sim.password_session in
  In (EvReauthenticate Sim.alice [photoslibrary_scope])
     (trace (snd (getAccessToken Sim.env w))) /\
  cachedToken (snd (getAccessToken Sim.env w)) = Some "tok-2" /\
  tokenExpiry (snd (getAccessToken Sim.env w)) = Some (1002 + 3600000).
Proof.
  destruct (token_acquisition_on_miss Sim.env) as [Hfb Hacq].
  split.
  - apply (Hfb (Sim.fresh Sim.password_session) Sim.alice WrongProvider
               (Sim.tick Sim.password_session)); [reflexivity .. | left; reflexivity].
  - destruct (Hacq (Sim.fresh Sim.password_session) Sim.alice eq_refl eq_refl) as [_ Hc].
    destruct (Hc "tok-2" (snd (getAccessToken Sim.env (Sim.fresh Sim.password_session)))
                eq_refl) as (H1 & H2 & _).
    split; [exact H1 | exact H2].
Defined.

(** ** Listing *)

Section Listing.

Context {Ext : Type}.
Variable env : Env Ext.

Lemma to_media_item_kept (raw : JsVal) (m : MediaItem) :
  to_media_item raw = Resolved m -> item_kept raw m.
Proof.
  unfold to_media_item, and_then, template, item_kept.
  destruct (get_prop raw "id") as [i|]; [|discriminate].
  destruct (get_prop raw "baseUrl") as [b|]; [|discriminate].
  destruct (to_js_string b) as [u|] eqn:Hu; [|discriminate].
  destruct (get_prop raw "filename") as [f|]; [|discriminate].
  destruct (get_prop raw "mimeType") as [mt|]; [|discriminate].
  intros H; injection H as <-. simpl. repeat split; auto.
  - eauto.
  - intros u' Hb. injection Hb as ->. simpl in Hu. injection Hu as ->. reflexivity.
Qed.

(** [map] keeps the length and the order: the n-th result is the
    conversion of the n-th element. *)
Lemma map_items_Forall2 (raw : list JsVal) :
  forall items, map_items raw = Resolved items ->
    Forall2 (fun r m => to_media_item r = Resolved m) raw items.
Proof.
  induction raw as [|r raw IH]; simpl; intros items H.
  - injection H as <-. constructor.
  - unfold and_then in H.
    destruct (to_media_item r) as [m|] eqn:Hm; [|discriminate].
    destruct (map_items raw) as [ms|]; [|discriminate].
    injection H as <-. constructor; auto.
Qed.

Lemma map_items_kept (raw : list JsVal) (items : list MediaItem) :
  map_items raw = Resolved items -> Forall2 item_kept raw items.
Proof.
  intros H. apply map_items_Forall2 in H.
  induction H; constructor; auto using to_media_item_kept.
Qed.

Lemma kept_items_sized (raw : list JsVal) (items : list MediaItem) :
  Forall2 item_kept raw items ->
  Forall (fun m => exists u, baseUrl m = u +:+ "=w1024-h1024") items.
Proof.
  induction 1 as [|r m raw' ms Hk _ IH]; constructor; auto.
  destruct Hk as (_ & _ & _ & (b & u & _ & _ & Hb) & _). eauto.
Qed.

Lemma js_map_inv (mediaItems : JsVal) (items : list MediaItem) :
  js_map mediaItems = Resolved items ->
  exists raw, mediaItems = JArr raw /\ map_items raw = Resolved items.
Proof. destruct mediaItems; simpl; try discriminate. eauto. Qed.

(** What a successful [try] block of [listMediaItems] went through. *)
Lemma list_attempt_success (token : string) (w0 w' : World Ext) (items : list MediaItem) :
  list_attempt env token w0 = (Resolved items, w') ->
  exists resp data mediaItems,
    fetch env (list_request token) (ext w0) = (Resolved resp, ext w') /\
    ok resp = true /\ json resp = Resolved data /\
    get_prop data "mediaItems" = Resolved mediaItems /\
    trace w' = trace w0 ++ [EvFetch (list_request token)] /\
    cachedToken w' = cachedToken w0 /\ tokenExpiry w' = tokenExpiry w0 /\
    (truthy mediaItems = false /\ items = [] \/
     truthy mediaItems = true /\ js_map mediaItems = Resolved items).
Proof.
  unfold list_attempt, bind, await, console_error, set_cache, settle, throw, ret.
  destruct (fetch env (list_request token) (ext w0)) as [[resp|e] s1]; simpl;
    [|discriminate].
  destruct (ok resp) eqn:Hok; simpl.
  - destruct (json resp) as [data|] eqn:Hj; [|discriminate].
    destruct (get_prop data "mediaItems") as [mediaItems|] eqn:Hm; [|discriminate].
    destruct (truthy mediaItems) eqn:Ht; simpl.
    + destruct (js_map mediaItems) as [ms|] eqn:Hjs; [|discriminate].
      intros H; injection H as <- <-. simpl. exists resp, data, mediaItems.
      repeat split; auto.
    + intros H; injection H as <- <-. simpl. exists resp, data, mediaItems.
      repeat split; auto.
  - destruct (status resp =? 401); discriminate.
Qed.

Lemma list_success_inv (w w' : World Ext) (items : list MediaItem) :
  listMediaItems env w = (Resolved items, w') ->
  exists token w0,
    getAccessToken env w = (Resolved (Some token), w0) /\
    list_attempt env token w0 = (Resolved items, w').
Proof.
  intros H.
  destruct (getAccessToken env w) as [[[token|]|e] w0] eqn:Hg.
  - unfold listMediaItems in H. rewrite (with_token env _ _ _ _ _ Hg) in H.
    unfold try_catch in H.
    destruct (list_attempt env token w0) as [[ms|e] w1] eqn:Ha.
    + injection H as <- <-. eauto.
    + discriminate.
  - unfold listMediaItems, bind in H. rewrite Hg in H. discriminate.
  - unfold listMediaItems in H. rewrite (without_token env _ _ _ _ Hg) in H. discriminate.
Qed.

(** C7.  A successful [listMediaItems] has issued exactly one HTTP
    request, the GET of [mediaItems?pageSize=100], and what it returns are
    the [mediaItems] of that one response: the empty list when the entry is
    missing or falsy, otherwise one item per element of the array, in
    order, each carrying the element's own [id], [filename] and [mimeType]
    and the element's [baseUrl] with "=w1024-h1024" appended.  And a
    success response without media items, or with an empty array of them,
    makes the call resolve with the empty list. *)
Theorem list_returns_single_page :
  (forall (w w' : World Ext) (items : list MediaItem),
     listMediaItems env w = (Resolved items, w') ->
     exists token w0 resp data mediaItems,
       getAccessToken env w = (Resolved (Some token), w0) /\
       http_requests (trace w') = http_requests (trace w) ++ [list_request token] /\
       url (list_request token)
         = "https://photoslibrary.googleapis.com/v1/mediaItems?pageSize=100" /\
       fetch env (list_request token) (ext w0) = (Resolved resp, ext w') /\
       json resp = Resolved data /\
       get_prop data "mediaItems" = Resolved mediaItems /\
       (truthy mediaItems = false /\ items = [] \/
        exists raw, mediaItems = JArr raw /\ Forall2 item_kept raw items)) /\
  (forall (w w0 : World Ext) (token : string) (resp : Response) (s1 : Ext)
          (data mediaItems : JsVal),
     getAccessToken env w = (Resolved (Some token), w0) ->
     fetch env (list_request token) (ext w0) = (Resolved resp, s1) ->
     ok resp = true -> json resp = Resolved data ->
     get_prop data "mediaItems" = Resolved mediaItems ->
     truthy mediaItems = false \/ mediaItems = JArr [] ->
     fst (listMediaItems env w) = Resolved []).
Proof.
  split.
  - intros w w' items H.
    destruct (list_success_inv _ _ _ H) as (token & w0 & Hg & Ha).
    destruct (list_attempt_success _ _ _ _ Ha)
      as (resp & data & mediaItems & Hf & _ & Hj & Hm & Ht & _ & _ & Hitems).
    exists token, w0, resp, data, mediaItems.
    destruct (getAccessToken_spec env w _ _ Hg) as (Hh & _).
    split; [exact Hg|].
    split; [rewrite Ht, http_requests_app, Hh; reflexivity|].
    split; [reflexivity|].
    split; [exact Hf|]. split; [exact Hj|]. split; [exact Hm|].
    destruct Hitems as [[? ?]|[_ Hjs]]; [left; auto|right].
    apply js_map_inv in Hjs as (raw & -> & Hraw).
    exists raw. split; [reflexivity|]. now apply map_items_kept.
  - intros w w0 token resp s1 data mediaItems Hg Hf Hok Hj Hm Hempty.
    unfold listMediaItems. rewrite (with_token env _ _ _ _ _ Hg).
    unfold try_catch, list_attempt, bind, await, settle, ret.
    rewrite Hf. simpl. rewrite Hok, Hj. simpl. rewrite Hm. simpl.
    destruct Hempty as [-> | ->]; reflexivity.
Qed.

(** C10.  The list returned by [listMediaItems] is, element by element
    and in the same order, the [mediaItems] array of the response: [id],
    [filename] and [mimeType] are the response item's own, and [baseUrl] is
    the response item's with "=w1024-h1024" appended. *)
Theorem list_keeps_order_and_fields (w w' : World Ext) (items : list MediaItem) :
  listMediaItems env w = (Resolved items, w') ->
  exists token w0 resp data,
    getAccessToken env w = (Resolved (Some token), w0) /\
    fetch env (list_request token) (ext w0) = (Resolved resp, ext w') /\
    json resp = Resolved data /\
    forall raw, get_prop data "mediaItems" = Resolved (JArr raw) ->
      Forall2 item_kept raw items.
Proof.
  intros H.
  destruct (list_success_inv _ _ _ H) as (token & w0 & Hg & Ha).
  destruct (list_attempt_success _ _ _ _ Ha)
    as (resp & data & mediaItems & Hf & _ & Hj & Hm & _ & _ & _ & Hitems).
  exists token, w0, resp, data. repeat split; auto.
  intros raw Hraw. rewrite Hm in Hraw. injection Hraw as ->.
  destruct Hitems as [[Ht _]|[_ Hjs]]; [discriminate|].
  simpl in Hjs. now apply map_items_kept.
Qed.

End Listing.

Lemma list_returns_single_page_witness :
  let w := Sim.fresh Sim.start in
  exists items,
    fst (listMediaItems Sim.env w) = Resolved items /\
    http_requests (trace (snd (listMediaItems Sim.env w))) = [list_request "tok-1"] /\
    Forall2 item_kept
      [Sim.photo "a" "https://lh3.example/a"; Sim.photo "b" "https://lh3.example/b"]
      items /\
    map baseUrl items
      = ["https://lh3.example/a=w1024-h1024"; "https://lh3.example/b=w1024-h1024"].
Proof.
  destruct (proj1 (list_returns_single_page Sim.env) (Sim.fresh Sim.start)
              (snd (listMediaItems Sim.env (Sim.fresh Sim.start)))
              _ eq_refl)
    as (token & w0 & resp & data & mediaItems & Hg & Hreq & _ & Hf & Hj & Hm & Hitems).
  eexists. split; [reflexivity|]. split; [reflexivity|]. split; [|reflexivity].
  vm_compute in Hg. injection Hg as <- <-.
  vm_compute in Hf. injection Hf as <-.
  vm_compute in Hj. injection Hj as <-.
  vm_compute in Hm. injection Hm as <-.
  destruct Hitems as [[Hfalsy _]|(raw & Hraw & Hkept)]; [discriminate|].
  injection Hraw as <-. exact Hkept.
Defined.

Lemma list_keeps_order_and_fields_witness :
  let w := Sim.fresh Sim.start in
  exists items,
    fst (listMediaItems Sim.env w) = Resolved items /\
    Forall2 item_kept
      [Sim.photo "a" "https://lh3.example/a"; Sim.photo "b" "https://lh3.example/b"]
      items.
Proof.
  destruct (list_keeps_order_and_fields Sim.env (Sim.fresh Sim.start)
              (snd (listMediaItems Sim.env (Sim.fresh Sim.start)))
              _ eq_refl)
    as (token & w0 & resp & data & Hg & Hf & Hj & Hraw).
  eexists. split; [reflexivity|].
  apply Hraw.
  vm_compute in Hg. injection Hg as <- <-.
  vm_compute in Hf. injection Hf as <-.
  vm_compute in Hj. injection Hj as <-.
  reflexivity.
Defined.

(** ** Mutations against a partial-update remote *)

Section Remote.

Context {Ext : Type}.
Variable env : Env Ext.
Variable library : Ext -> gmap string Flags.
Hypothesis remote : PartialUpdateRemote env library.

Lemma parse_batchModify (field : Field) (i token : string) :
  parse_update (batchModify_request (field_name field) i token)
  = Some {| targets := [i]; mask := field; value := true |}.
Proof. destruct field; reflexivity. Qed.

Lemma set_flag_twice (f : Field) (v : bool) (fl : Flags) :
  set_flag f v (set_flag f v fl) = set_flag f v fl.
Proof. destruct f; reflexivity. Qed.

Lemma apply_update_single (f : Field) (v : bool) (i : string) (lib : gmap string Flags) :
  apply_update {| targets := [i]; mask := f; value := v |} lib
  = alter (set_flag f v) i lib.
Proof. reflexivity. Qed.

Lemma alter_set_flag_twice (f : Field) (v : bool) (i : string) (lib : gmap string Flags) :
  alter (set_flag f v) i (alter (set_flag f v) i lib) = alter (set_flag f v) i lib.
Proof.
  rewrite alter_alter_eq. apply alter_ext. intros fl _. apply set_flag_twice.
Qed.

Lemma silent_outcome_keeps_library (user : User) (s0 : Ext) :
  library (snd (silent_outcome env user s0)) = library s0.
Proof.
  unfold silent_outcome.
  pose proof (getIdTokenResult_keeps_library _ _ remote user true s0) as H1.
  destruct (getIdTokenResult env user true s0) as [[result|e] s1]; simpl in *; auto.
  destruct (is_google (provider_of result)); auto.
  pose proof (getIdToken_keeps_library _ _ remote user s1) as H2.
  destruct (getIdToken env user s1) as [[credential|e] s2]; simpl in *; [|congruence].
  destruct (truthy_string credential); simpl; congruence.
Qed.

(** Token acquisition only talks to the identity provider. *)
Lemma getAccessToken_keeps_library (w : World Ext) :
  library (ext (snd (getAccessToken env w))) = library (ext w).
Proof.
  destruct (currentUser env (ext w)) as [user|] eqn:Hu;
    [|now rewrite (getAccessToken_no_session env w Hu)].
  destruct (cache_valid env w) eqn:Hc;
    [now rewrite (getAccessToken_cache_hit env w user Hu Hc)|].
  destruct (acquire_token env user w) as [r0 w0] eqn:Ha.
  destruct (getAccessToken_miss_inv env w user Hu Hc _ _ Ha) as (_ & _ & -> & _).
  destruct (silent_outcome env user (ext w)) as [o s] eqn:Ho.
  pose proof (silent_outcome_keeps_library user (ext w)) as Hs. rewrite Ho in Hs.
  simpl in Hs.
  pose proof (acquire_token_by_outcome env user w _ _ _ _ Ho Ha) as Hq.
  pose proof (reauthenticate_keeps_library _ _ remote user [photoslibrary_scope] s) as Hp.
  destruct o as [t| | |e].
  - destruct Hq as [_ ->]. exact Hs.
  - destruct Hq as (_ & -> & _). congruence.
  - destruct Hq as (_ & -> & _). congruence.
  - destruct Hq as (_ & -> & _). exact Hs.
Qed.

Lemma batchModify_one_field (field : Field) (label failure : string) :
  one_field_mutation library field
    (fun i => mutation env (batchModify_request (field_name field) i) label failure).
Proof.
  intros i w w' r Hm.
  pose proof (mutation_spec env _ _ _ _ _ _ Hm) as Hs.
  pose proof (getAccessToken_keeps_library w) as Hlib.
  destruct (getAccessToken env w) as [[[token|]|e] w0] eqn:Hg; simpl in Hlib.
  - destruct Hs as (_ & _ & Hx & Ht & Hr).
    destruct (fetch env (batchModify_request (field_name field) i token) (ext w0))
      as [out s1] eqn:Hf. simpl in *. subst s1.
    split; [|split].
    + exists [batchModify_request (field_name field) i token].
      split; [exact Ht|]. split; [simpl; lia|].
      constructor; [|constructor]. split; [eauto | apply parse_batchModify].
    + intros e He. rewrite <- Hlib.
      apply (refusal_keeps_library _ _ remote _ _ _ _ Hf).
      intros resp ->. destruct (ok resp); [congruence | reflexivity].
    + intros ->. rewrite <- Hlib.
      destruct out as [resp|e]; [|discriminate].
      destruct (ok resp) eqn:Hok; [|discriminate].
      rewrite <- apply_update_single.
      apply (update_applied _ _ remote _ _ _ _ _ (parse_batchModify field i token) Hf Hok).
  - destruct Hs as [-> ->]. split; [|split]; [|auto|discriminate].
    exists []. rewrite app_nil_r. split; [reflexivity|]. split; [simpl; lia | constructor].
  - destruct Hs as [-> ->]. split; [|split]; [|auto|discriminate].
    exists []. rewrite app_nil_r.
    split; [apply (getAccessToken_spec env w _ _ Hg)|].
    split; [simpl; lia | constructor].
Qed.

(** C9.  Against a partial-update remote, every HTTP request issued by
    [favoriteMediaItem i] or [archiveMediaItem i] is a batchModify whose
    body lists the one id [i], masks the one field ([favorite] or
    [archive]) and sets it to [true]; there is at most one such request
    per call.  A call that fails leaves the remote library unchanged, and
    a call that succeeds has changed that one field of that one item and
    nothing else. *)
Theorem mutations_touch_one_field :
  one_field_mutation library Favorite (favoriteMediaItem env) /\
  one_field_mutation library Archive (archiveMediaItem env).
Proof.
  split.
  - apply (batchModify_one_field Favorite "Error favoriting media item:" "Failed to favorite media item").
  - apply (batchModify_one_field Archive "Error archiving media item:" "Failed to archive media item").
Qed.

(** How a mutation runs when the token is there and the remote accepts. *)
Lemma mutation_accepted (req : string -> Request) (label failure : string)
    (w w0 : World Ext) (token : string) (resp : Response) (s1 : Ext) :
  getAccessToken env w = (Resolved (Some token), w0) ->
  fetch env (req token) (ext w0) = (Resolved resp, s1) ->
  ok resp = true ->
  exists w', mutation env req label failure w = (Resolved tt, w') /\ ext w' = s1.
Proof.
  intros Hg Hf Hok. unfold mutation. rewrite (with_token env _ _ _ _ _ Hg).
  unfold try_catch, mutation_attempt, bind, await, ret. rewrite Hf. simpl.
  rewrite Hok. simpl. eauto.
Qed.

Lemma batchModify_idempotent (field : Field) (label failure : string) :
  idempotent_mutation env library
    (fun i => mutation env (batchModify_request (field_name field) i) label failure).
Proof.
  intros i w w1 user Hm Hu Hc.
  pose proof (mutation_spec env _ _ _ _ _ _ Hm) as Hs.
  destruct (getAccessToken env w) as [[[token|]|e] w0] eqn:Hg;
    [| destruct Hs; discriminate | destruct Hs; discriminate].
  destruct Hs as (Hct & _ & Hx & _ & Hr).
  destruct (fetch env (batchModify_request (field_name field) i token) (ext w0))
    as [[resp|e] s1] eqn:Hf; simpl in *; [|discriminate].
  destruct (ok resp) eqn:Hok; [|discriminate]. subst s1.
  destruct (getAccessToken_spec env w _ _ Hg) as (_ & _ & Htok & _).
  (* the second call finds the token of the first in the cache *)
  pose proof (getAccessToken_cache_hit env w1 user Hu Hc) as Hg1.
  rewrite Hct, Htok in Hg1.
  destruct (repeat_accepted _ _ remote _ _ _ _ _ (parse_batchModify field i token) Hf Hok)
    as (resp2 & s2 & Hf2 & Hok2).
  destruct (mutation_accepted _ label failure _ _ _ _ _ Hg1 Hf2 Hok2) as (w2 & Hm2 & Hx2).
  exists w2. split; [exact Hm2|]. rewrite Hx2.
  rewrite (update_applied _ _ remote _ _ _ _ _ (parse_batchModify field i token) Hf2 Hok2).
  rewrite (update_applied _ _ remote _ _ _ _ _ (parse_batchModify field i token) Hf Hok).
  rewrite !apply_update_single. apply alter_set_flag_twice.
Qed.

(** C8.  Against a partial-update remote, repeating a successful
    [favoriteMediaItem i] or [archiveMediaItem i] (the session lasting and
    the cached token still valid) succeeds again, and the remote library
    after the second call is the library after the first. *)
Theorem mutations_idempotent :
  idempotent_mutation env library (favoriteMediaItem env) /\
  idempotent_mutation env library (archiveMediaItem env).
Proof.
  split.
  - apply (batchModify_idempotent Favorite "Error favoriting media item:" "Failed to favorite media item").
  - apply (batchModify_idempotent Archive "Error archiving media item:" "Failed to archive media item").
Qed.

End Remote.

(** ** The simulated remote honours the contract *)

Lemma parse_update_post (req : Request) (u : Update) :
  parse_update req = Some u -> method req = "POST".
Proof.
  unfold parse_update.
  destruct (String.eqb_spec (method req) "POST"); simpl; [auto | discriminate].
Qed.

Lemma known_alter (f : Flags -> Flags) (i j : string) (lib : gmap string Flags) :
  Sim.known (alter f i lib) j = Sim.known lib j.
Proof.
  unfold Sim.known. rewrite lookup_alter.
  destruct (decide (i = j)) as [->|]; [|reflexivity].
  destruct (lib !! j); reflexivity.
Qed.

Lemma known_apply_update (u : Update) (lib : gmap string Flags) (j : string) :
  Sim.known (apply_update u lib) j = Sim.known lib j.
Proof.
  unfold apply_update. induction (targets u) as [|i rest IH]; simpl; [reflexivity|].
  now rewrite known_alter.
Qed.

Lemma all_known_apply_update (u : Update) (lib : gmap string Flags) (l : list string) :
  forallb (Sim.known (apply_update u lib)) l = forallb (Sim.known lib) l.
Proof.
  induction l as [|j l IH]; simpl; [reflexivity|].
  now rewrite known_apply_update, IH.
Qed.

Lemma sim_partial_update : PartialUpdateRemote Sim.env Sim.library.
Proof.
  split.
  - intros req u s resp s' Hp Hf Hok. simpl in Hf. unfold Sim.serve in Hf.
    rewrite Hp, (parse_update_post _ _ Hp) in Hf. simpl in Hf.
    destruct (Sim.online s); simpl in Hf; [|discriminate].
    destruct (Sim.authorized req s); simpl in Hf;
      [|injection Hf as <- <-; discriminate].
    destruct (forallb (Sim.known (Sim.library s)) (targets u));
      injection Hf as <- <-; [reflexivity | discriminate].
  - intros req s out s' Hf Hno. simpl in Hf. unfold Sim.serve in Hf.
    destruct (Sim.online s); simpl in Hf; [|injection Hf as <- <-; reflexivity].
    destruct (Sim.authorized req s); simpl in Hf;
      [|injection Hf as <- <-; reflexivity].
    destruct (String.eqb (method req) "GET"); [injection Hf as <- <-; reflexivity|].
    destruct (parse_update req) as [u|]; [|injection Hf as <- <-; reflexivity].
    destruct (forallb (Sim.known (Sim.library s)) (targets u));
      injection Hf as <- <-; [|reflexivity].
    specialize (Hno _ eq_refl). discriminate.
  - intros req u s resp s' Hp Hf Hok. simpl in Hf |- *. unfold Sim.serve in *.
    rewrite Hp, (parse_update_post _ _ Hp) in *. simpl in Hf |- *.
    destruct (Sim.online s) eqn:Hon; simpl in Hf; [|discriminate].
    destruct (Sim.authorized req s) eqn:Hau; simpl in Hf;
      [|injection Hf as <- <-; discriminate].
    destruct (forallb (Sim.known (Sim.library s)) (targets u)) eqn:Hk;
      injection Hf as <- <-; [|discriminate].
    simpl. rewrite Hon. unfold Sim.authorized in *. simpl. rewrite Hau. simpl.
    rewrite all_known_apply_update, Hk.
    eauto.
  - reflexivity.
  - reflexivity.
  - reflexivity.
Qed.

Lemma mutations_idempotent_witness :
  let w := Sim.fresh Sim.start in
  exists w1 w2,
    favoriteMediaItem Sim.env "a" w = (Resolved tt, w1) /\
    favoriteMediaItem Sim.env "a" w1 = (Resolved tt, w2) /\
    Sim.library (ext w2) = Sim.library (ext w1) /\
    Sim.library (ext w1) !! "a" = Some {| is_favorite := true; is_archived := false |}.
Proof.
  destruct (mutations_idempotent Sim.env Sim.library sim_partial_update) as [Hfav _].
  destruct (Hfav "a" (Sim.fresh Sim.start)
              (snd (favoriteMediaItem Sim.env "a" (Sim.fresh Sim.start)))
              Sim.alice eq_refl eq_refl eq_refl) as (w2 & Hrun & Hlib).
  eexists _, w2. split; [reflexivity|]. split; [exact Hrun|]. split; [exact Hlib|].
  reflexivity.
Defined.

Lemma mutations_touch_one_field_witness :
  let w := Sim.fresh Sim.start in
  Sim.library (ext (snd (archiveMediaItem Sim.env "a" w)))
    = alter (set_flag Archive true) "a" (Sim.library (ext w)) /\
  Sim.library (ext (snd (archiveMediaItem Sim.env "zz" w))) = Sim.library (ext w).
Proof.
  destruct (mutations_touch_one_field Sim.env Sim.library sim_partial_update) as [_ Harc].
  split.
  - destruct (Harc "a" (Sim.fresh Sim.start) _ _ eq_refl) as (_ & _ & Hok).
    apply Hok. reflexivity.
  - destruct (Harc "zz" (Sim.fresh Sim.start) _ _ eq_refl) as (_ & Hfail & _).
    eapply Hfail. reflexivity.
Defined.

(** * Further properties of the module *)

(** ** What a call of [getAccessToken] does to the trace *)

Section TokenTrace.

Context {Ext : Type}.
Variable env : Env Ext.

Ltac finish_calls :=
  simpl; rewrite <- ?app_assoc; simpl;
  eexists; split; [reflexivity | simpl; auto 6].

Ltac popup_calls user s :=
  destruct (reauthenticateWithPopup env user [photoslibrary_scope] s)
    as [[userCred|?] ?]; simpl;
  [ destruct (access_token_of userCred) as [t|]; [destruct (truthy_string t)|] | ];
  finish_calls.

Lemma acquire_token_calls (user : User) (w : World Ext) :
  exists calls,
    trace (snd (acquire_token env user w)) = trace w ++ calls /\
    In calls (acquisition_calls user).
Proof.
  unfold acquire_token, cache_and_return, bind, await, date_now, set_cache, ret, throw.
  destruct (getIdTokenResult env user true (ext w)) as [[result|e] s1]; simpl;
    [|finish_calls].
  destruct (is_google (provider_of result)); simpl.
  - destruct (getIdToken env user s1) as [[credential|e] s2]; simpl; [|finish_calls].
    destruct (truthy_string credential); simpl; [finish_calls|].
    popup_calls user s2.
  - popup_calls user s1.
Qed.

(** The trace of a whole call: nothing on a cache hit or without a
    session; otherwise the calls of the acquisition, followed by one log
    entry exactly when the call rejects. *)
Lemma getAccessToken_calls (w : World Ext) :
  exists evs,
    trace (snd (getAccessToken env w)) = trace w ++ evs /\
    ((evs = [] /\ snd (getAccessToken env w) = w /\
      (currentUser env (ext w) = None \/ cache_valid env w = true)) \/
     (exists user calls log,
        currentUser env (ext w) = Some user /\ cache_valid env w = false /\
        evs = calls ++ log /\ In calls (acquisition_calls user) /\
        match fst (getAccessToken env w) with
        | Resolved _ => log = []
        | Rejected _ =>
            exists cause, log = [EvConsoleError "Error getting access token:" (LoggedExn cause)]
        end)).
Proof.
  destruct (currentUser env (ext w)) as [user|] eqn:Hu.
  - destruct (cache_valid env w) eqn:Hc.
    + exists []. rewrite (getAccessToken_cache_hit env w user Hu Hc). simpl.
      rewrite app_nil_r. auto 6.
    + destruct (acquire_token_calls user w) as (calls & Ht & Hin).
      rewrite (getAccessToken_cache_miss env w user Hu Hc). unfold try_catch.
      destruct (acquire_token env user w) as [[a|e] w0]; simpl in Ht |- *.
      * exists calls. split; [exact Ht|]. right. exists user, calls, [].
        rewrite app_nil_r. auto 6.
      * exists (calls ++ [EvConsoleError "Error getting access token:" (LoggedExn e)]).
        rewrite Ht, <- app_assoc. split; [reflexivity|].
        right. exists user, calls, [EvConsoleError "Error getting access token:" (LoggedExn e)].
        repeat split; eauto.
  - exists []. rewrite (getAccessToken_no_session env w Hu). simpl.
    rewrite app_nil_r. auto 6.
Qed.

End TokenTrace.

(** ** The credential cache, further *)

Section CacheExtras.

Context {Ext : Type}.
Variable env : Env Ext.

Lemma reauthentications_app (t1 t2 : list Event) :
  reauthentications (t1 ++ t2) = reauthentications t1 ++ reauthentications t2.
Proof. unfold reauthentications. apply omap_app. Qed.

Lemma expired_cache_invalid (w : World Ext) (e : Z) :
  tokenExpiry w = Some e -> e <= now env (ext w) -> cache_valid env w = false.
Proof.
  intros He Hle. unfold cache_valid. rewrite He.
  destruct (cachedToken w); [|reflexivity].
  replace (now env (ext w) <? e) with false by (symmetry; apply Z.ltb_ge; lia).
  now rewrite andb_false_r.
Qed.

(** X1.  A cached token whose expiry has been reached (the test is
    strict: at [Date.now() = tokenExpiry] the token is already expired) is
    never served.  With a session, the call starts a fresh acquisition with
    [getIdTokenResult(true)], and a token it returns is in the cache with a
    new expiry one hour after the acquisition. *)
Theorem expired_token_is_reacquired (w : World Ext) (user : User) (e : Z) :
  currentUser env (ext w) = Some user ->
  tokenExpiry w = Some e ->
  e <= now env (ext w) ->
  (exists evs, trace (snd (getAccessToken env w))
               = trace w ++ EvGetIdTokenResult user true :: evs) /\
  forall t' w', getAccessToken env w = (Resolved (Some t'), w') ->
    cachedToken w' = Some t' /\ tokenExpiry w' = Some (now env (ext w') + 3600000).
Proof.
  intros Hu He Hle.
  pose proof (expired_cache_invalid w e He Hle) as Hc.
  destruct (acquire_token env user w) as [r0 w0] eqn:Ha.
  destruct (getAccessToken_miss_inv env w user Hu Hc _ _ Ha)
    as (log & Ht & Hx & Hct & Hce & Hr).
  destruct (acquire_token_spec env user w _ _ Ha) as (Hcache & _ & evs & Hevs).
  split.
  - rewrite Ht, Hevs, <- app_assoc. simpl. eauto.
  - intros t' w' Hg. rewrite Hg in *. simpl in *.
    destruct r0 as [a|err]; [|discriminate].
    destruct Hr as [Hr _]. injection Hr as Hr. subst a. simpl in Hcache.
    destruct Hcache as (_ & Hc1 & Hc2). split; congruence.
Qed.

(** X2.  However the acquisition fails (a rejecting call of the identity
    provider, a popup that is closed, a credential without access token),
    [getAccessToken] rejects with the one error
    "Failed to get access token", the cause goes to the console only, both
    cache variables are left as they were and no HTTP request was made. *)
Theorem acquisition_failure_is_flat (w w' : World Ext) (e : Exn) :
  getAccessToken env w = (Rejected e, w') ->
  e = Error "Failed to get access token" /\
  cachedToken w' = cachedToken w /\ tokenExpiry w' = tokenExpiry w /\
  http_requests (trace w') = http_requests (trace w) /\
  exists user calls cause,
    currentUser env (ext w) = Some user /\
    In calls (acquisition_calls user) /\
    trace w' = trace w ++ calls
               ++ [EvConsoleError "Error getting access token:" (LoggedExn cause)].
Proof.
  intros Hg.
  destruct (getAccessToken_spec env w _ _ Hg) as (Hh & He & Hc1 & Hc2).
  repeat (split; [assumption|]).
  destruct (getAccessToken_calls env w) as (evs & Ht & Hcase).
  rewrite Hg in Ht, Hcase. simpl in Ht, Hcase.
  destruct Hcase as [(_ & -> & Hhit)|(user & calls & log & Hu & Hc & -> & Hin & cause & ->)].
  - exfalso. destruct Hhit as [Hu|Hc].
    + rewrite (getAccessToken_no_session env w Hu) in Hg. discriminate.
    + destruct (currentUser env (ext w)) as [user|] eqn:Hu.
      * rewrite (getAccessToken_cache_hit env w user Hu Hc) in Hg. discriminate.
      * rewrite (getAccessToken_no_session env w Hu) in Hg. discriminate.
  - exists user, calls, cause. auto.
Qed.

(** X3.  One call of [getAccessToken] opens the re-authentication popup
    at most once, always for the signed-in user and with the photo-library
    scope added, and never before it has tried [getIdTokenResult(true)];
    on a cache hit or without a session it opens none. *)
Theorem popup_opened_at_most_once (w : World Ext) :
  exists evs,
    trace (snd (getAccessToken env w)) = trace w ++ evs /\
    (reauthentications evs = [] \/
     exists user rest,
       currentUser env (ext w) = Some user /\ cache_valid env w = false /\
       reauthentications evs = [(user, [photoslibrary_scope])] /\
       evs = EvGetIdTokenResult user true :: rest).
Proof.
  destruct (getAccessToken_calls env w) as (evs & Ht & Hcase).
  exists evs. split; [exact Ht|].
  destruct Hcase as [(-> & _)|(user & calls & log & Hu & Hc & -> & Hin & Hlog)];
    [left; reflexivity|].
  assert (Hl : reauthentications log = []).
  { destruct (fst (getAccessToken env w)); [now subst log|].
    destruct Hlog as (cause & ->). reflexivity. }
  rewrite reauthentications_app, Hl, app_nil_r.
  simpl in Hin.
  destruct Hin as [<-|[<-|[<-|[<-|[]]]]]; simpl; eauto 8.
Qed.

(** The [try] block of [listMediaItems] leaves both cache variables
    alone or empties both. *)
Lemma list_attempt_cache_pair (token : string) (w : World Ext) :
  forall r w', list_attempt env token w = (r, w') ->
    (cachedToken w' = cachedToken w /\ tokenExpiry w' = tokenExpiry w) \/
    (cachedToken w' = None /\ tokenExpiry w' = None).
Proof.
  intros r w'.
  unfold list_attempt, bind, await, console_error, set_cache, settle, throw, ret.
  destruct (fetch env (list_request token) (ext w)) as [[resp|e] s1]; simpl.
  - intros H. repeat case_match; simplify_eq; simpl; auto.
  - intros H; injection H as <- <-; simpl. auto.
Qed.

Lemma getAccessToken_consistent (w : World Ext) :
  cache_consistent w -> cache_consistent (snd (getAccessToken env w)).
Proof.
  intros Hw. destruct (getAccessToken env w) as [r w'] eqn:Hg. simpl.
  destruct (getAccessToken_spec env w _ _ Hg) as (_ & Hs).
  destruct r as [[t|]|e].
  - destruct Hs as (Ht & Hc & e & He). unfold cache_consistent. rewrite Hc, He.
    now apply truthy_string_nonempty.
  - destruct Hs as [-> _]. exact Hw.
  - destruct Hs as (_ & Hc & He). unfold cache_consistent in *. now rewrite Hc, He.
Qed.

Lemma mutation_consistent (req : string -> Request) (label failure : string)
    (w : World Ext) :
  cache_consistent w -> cache_consistent (snd (mutation env req label failure w)).
Proof.
  intros Hw. destruct (mutation env req label failure w) as [r w'] eqn:Hm. simpl.
  pose proof (mutation_spec env req label failure w _ _ Hm) as Hs.
  pose proof (getAccessToken_consistent w Hw) as Hw0.
  destruct (getAccessToken env w) as [[[token|]|e] w0]; simpl in Hw0.
  - destruct Hs as (Hc & He & _). unfold cache_consistent in *. now rewrite Hc, He.
  - destruct Hs as [_ ->]. exact Hw.
  - destruct Hs as [_ ->]. exact Hw0.
Qed.

(** X4.  The two module variables stay in step: starting from a cache
    where [cachedToken] and [tokenExpiry] are both set (to a non-empty
    token) or both [null], every function of the module leaves them both
    set or both [null], whatever the collaborators answer. *)
Theorem cache_stays_consistent (w : World Ext) (mediaItemId : string) :
  cache_consistent w ->
  cache_consistent (snd (getAccessToken env w)) /\
  cache_consistent (snd (listMediaItems env w)) /\
  cache_consistent (snd (favoriteMediaItem env mediaItemId w)) /\
  cache_consistent (snd (archiveMediaItem env mediaItemId w)) /\
  cache_consistent (snd (deleteMediaItem env mediaItemId w)).
Proof.
  intros Hw. split; [now apply getAccessToken_consistent|].
  split; [|split; [|split]]; try now apply mutation_consistent.
  pose proof (getAccessToken_consistent w Hw) as Hw0.
  destruct (getAccessToken env w) as [[[token|]|e] w0] eqn:Hg; simpl in Hw0.
  - unfold listMediaItems. rewrite (with_token env _ _ _ _ _ Hg). unfold try_catch.
    destruct (list_attempt env token w0) as [r1 w1] eqn:Ha.
    assert (Hw1 : cache_consistent w1).
    { destruct (list_attempt_cache_pair _ _ _ _ Ha) as [[Hc He]|[Hc He]];
        unfold cache_consistent in *; now rewrite Hc, He. }
    destruct r1; simpl; exact Hw1.
  - unfold listMediaItems, bind. rewrite Hg. simpl.
    destruct (getAccessToken_spec env w _ _ Hg) as (_ & -> & _). exact Hw.
  - unfold listMediaItems. now rewrite (without_token env _ _ _ _ Hg).
Qed.

End CacheExtras.

Lemma expired_token_is_reacquired_witness :
  let w := Sim.cached "tok-0" 1000 Sim.start in
  (exists evs, trace (snd (getAccessToken Sim.env w))
               = EvGetIdTokenResult Sim.alice true :: evs) /\
  cachedToken (snd (getAccessToken Sim.env w)) = Some "tok-1" /\
  tokenExpiry (snd (getAccessToken Sim.env w)) = Some (1002 + 3600000).
Proof.
  destruct (expired_token_is_reacquired Sim.env (Sim.cached "tok-0" 1000 Sim.start)
              Sim.alice 1000 eq_refl eq_refl) as [Hfirst Hnew]; [simpl; lia|].
  split; [exact Hfirst|].
  apply (Hnew "tok-1" (snd (getAccessToken Sim.env (Sim.cached "tok-0" 1000 Sim.start)))).
  reflexivity.
Defined.

Lemma acquisition_failure_is_flat_witness :
  let w := Sim.cached "tok-0" 1000 Scenario.popup_without_token in
  fst (getAccessToken Sim.env w) = Rejected (Error "Failed to get access token") /\
  cachedToken (snd (getAccessToken Sim.env w)) = Some "tok-0" /\
  tokenExpiry (snd (getAccessToken Sim.env w)) = Some 1000.
Proof.
  destruct (acquisition_failure_is_flat Sim.env
              (Sim.cached "tok-0" 1000 Scenario.popup_without_token)
              (snd (getAccessToken Sim.env
                      (Sim.cached "tok-0" 1000 Scenario.popup_without_token)))
              (Error "Failed to get access token") eq_refl)
    as (_ & Hc & He & _).
  split; [reflexivity|]. split; [exact Hc | exact He].
Defined.

Lemma cache_stays_consistent_witness :
  let w := Sim.cached "tok-1" 3601000 Sim.revoked in
  cache_consistent (snd (listMediaItems Sim.env w)) /\
  cache_consistent (snd (favoriteMediaItem Sim.env "a" w)).
Proof.
  destruct (cache_stays_consistent Sim.env (Sim.cached "tok-1" 3601000 Sim.revoked) "a")
    as (_ & Hl & Hf & _); [simpl; discriminate|].
  split; [exact Hl | exact Hf].
Defined.

(** ** The operations, further *)

Section OperationExtras.

Context {Ext : Type}.
Variable env : Env Ext.

(** The [try] blocks send their request first and then only log. *)
Lemma mutation_attempt_trace (req : Request) (failure : string) (w : World Ext) :
  exists logs,
    trace (snd (mutation_attempt env req failure w)) = trace w ++ EvFetch req :: logs /\
    Forall is_log logs.
Proof.
  unfold mutation_attempt, bind, await, console_error, throw, ret.
  destruct (fetch env req (ext w)) as [[resp|e] s1]; simpl.
  - destruct (ok resp); simpl.
    + exists []. auto.
    + eexists [_]. rewrite <- app_assoc. split; [reflexivity|].
      repeat constructor.
  - exists []. auto.
Qed.

Lemma list_attempt_trace (token : string) (w : World Ext) :
  exists logs,
    trace (snd (list_attempt env token w)) = trace w ++ EvFetch (list_request token) :: logs /\
    Forall is_log logs.
Proof.
  unfold list_attempt, bind, await, console_error, set_cache, settle, throw, ret.
  destruct (fetch env (list_request token) (ext w)) as [[resp|e] s1]; simpl;
    [|exists []; auto].
  destruct (ok resp); simpl.
  - destruct (json resp) as [data|]; simpl; [|exists []; auto].
    destruct (get_prop data "mediaItems") as [v|]; simpl; [|exists []; auto].
    destruct (truthy v); simpl; [|exists []; auto].
    destruct (js_map v); exists []; auto.
  - destruct (status resp =? 401); simpl; [exists []; auto|].
    eexists [_]. rewrite <- app_assoc. split; [reflexivity|]. repeat constructor.
Qed.

(** An operation with a token in hand: its [try] block, then at most the
    log entry of its [catch] clause. *)
Lemma guarded_trace {A} (attempt : string -> M Ext A) (handler : Exn -> M Ext A)
    (label : string) (req : string -> Request) (w w0 : World Ext) (token : string) :
  (forall e w1, exists e', handler e w1 =
     (Rejected e', {| cachedToken := cachedToken w1; tokenExpiry := tokenExpiry w1;
                      ext := ext w1;
                      trace := trace w1 ++ [EvConsoleError label (LoggedExn e)] |})) ->
  (forall w1, exists logs,
     trace (snd (attempt token w1)) = trace w1 ++ EvFetch (req token) :: logs /\
     Forall is_log logs) ->
  getAccessToken env w = (Resolved (Some token), w0) ->
  let op := bind (getAccessToken env)
              (fun t => bind (require_token t) (fun t => try_catch (attempt t) handler)) in
  exists logs,
    trace (snd (op w)) = trace w0 ++ EvFetch (req token) :: logs /\
    Forall is_log logs /\
    (forall e, fst (op w) = Rejected e ->
       exists pre cause, trace (snd (op w)) = pre ++ [EvConsoleError label (LoggedExn cause)]).
Proof.
  intros Hh Ha Hg op. subst op. rewrite (with_token env _ _ _ _ _ Hg).
  unfold try_catch. destruct (Ha w0) as (logs & Ht & Hl).
  destruct (attempt token w0) as [[a|e] w1]; simpl in Ht |- *.
  - exists logs. split; [exact Ht|]. split; [exact Hl|]. discriminate.
  - destruct (Hh e w1) as (e' & ->). simpl.
    exists (logs ++ [EvConsoleError label (LoggedExn e)]).
    split; [rewrite Ht, <- app_assoc; reflexivity|].
    split; [apply Forall_app; split; [exact Hl | repeat constructor]|].
    intros _ _. eauto.
Qed.

Lemma mutation_trace (req : string -> Request) (label failure : string)
    (w w0 : World Ext) (token : string) :
  getAccessToken env w = (Resolved (Some token), w0) ->
  exists logs,
    trace (snd (mutation env req label failure w))
      = trace w0 ++ EvFetch (req token) :: logs /\
    Forall is_log logs /\
    (forall e, fst (mutation env req label failure w) = Rejected e ->
       exists pre cause,
         trace (snd (mutation env req label failure w))
           = pre ++ [EvConsoleError label (LoggedExn cause)]).
Proof.
  intros Hg.
  apply (guarded_trace (fun t => mutation_attempt env (req t) failure) _ label req w w0 token);
    [| |exact Hg].
  - intros e w1. exists (Error failure). reflexivity.
  - intros w1. apply mutation_attempt_trace.
Qed.

Lemma list_trace (w w0 : World Ext) (token : string) :
  getAccessToken env w = (Resolved (Some token), w0) ->
  exists logs,
    trace (snd (listMediaItems env w))
      = trace w0 ++ EvFetch (list_request token) :: logs /\
    Forall is_log logs /\
    (forall e, fst (listMediaItems env w) = Rejected e ->
       exists pre cause,
         trace (snd (listMediaItems env w))
           = pre ++ [EvConsoleError "Error fetching media items:" (LoggedExn cause)]).
Proof.
  intros Hg.
  apply (guarded_trace (list_attempt env) _ "Error fetching media items:"
           list_request w w0 token); [| |exact Hg].
  - intros e w1. exists e. reflexivity.
  - intros w1. apply list_attempt_trace.
Qed.

End OperationExtras.

Section OperationTheorems.

Context {Ext : Type}.
Variable env : Env Ext.

Lemma http_requests_logs (logs : list Event) :
  Forall is_log logs -> http_requests logs = [].
Proof.
  induction 1 as [|ev logs Hev _ IH]; [reflexivity|].
  destruct ev; try contradiction. exact IH.
Qed.

(** With a token in hand, the requests of a call are its one request. *)
Lemma requests_of_trace (w w0 w' : World Ext) (token : string) (req : Request)
    (logs : list Event) :
  getAccessToken env w = (Resolved (Some token), w0) ->
  trace w' = trace w0 ++ EvFetch req :: logs ->
  Forall is_log logs ->
  http_requests (trace w') = http_requests (trace w) ++ [req].
Proof.
  intros Hg Ht Hl.
  destruct (getAccessToken_spec env w _ _ Hg) as (Hh & _).
  rewrite Ht, http_requests_app, Hh. simpl. now rewrite (http_requests_logs _ Hl).
Qed.

Lemma authorized_by_token {A} (op : M Ext A) (req : string -> Request) :
  (forall token, headers (req token) = auth_headers token) ->
  (forall w w0 token, getAccessToken env w = (Resolved (Some token), w0) ->
     exists logs, trace (snd (op w)) = trace w0 ++ EvFetch (req token) :: logs /\
                  Forall is_log logs) ->
  (forall w w0, getAccessToken env w = (Resolved None, w0) -> snd (op w) = w) ->
  (forall w w0 e, getAccessToken env w = (Rejected e, w0) -> snd (op w) = w0) ->
  sends_only_authorized env op.
Proof.
  intros Hhead Htok Hnone Hrej w.
  destruct (getAccessToken env w) as [[[token|]|e] w0] eqn:Hg.
  - destruct (Htok w w0 token Hg) as (logs & Ht & Hl).
    exists [req token]. split; [exact (requests_of_trace _ _ _ _ _ _ Hg Ht Hl)|].
    constructor; [|constructor]. exists token.
    destruct (getAccessToken_spec env w _ _ Hg) as (_ & Htr & Hc & _). simpl.
    repeat split; auto. now apply truthy_string_nonempty.
  - rewrite (Hnone w w0 Hg). exists []. rewrite app_nil_r. split; [reflexivity|constructor].
  - rewrite (Hrej w w0 e Hg). exists []. rewrite app_nil_r.
    split; [apply (getAccessToken_spec env w _ _ Hg)|constructor].
Qed.

Lemma mutation_authorized (req : string -> Request) (label failure : string) :
  (forall token, headers (req token) = auth_headers token) ->
  sends_only_authorized env (mutation env req label failure).
Proof.
  intros Hhead. apply (authorized_by_token _ req Hhead).
  - intros w w0 token Hg.
    destruct (mutation_trace env req label failure w w0 token Hg) as (logs & Ht & Hl & _).
    eauto.
  - intros w w0 Hg. unfold mutation, bind. rewrite Hg. simpl.
    apply (getAccessToken_spec env w _ _ Hg).
  - intros w w0 e Hg. unfold mutation. now rewrite (without_token env _ _ _ _ Hg).
Qed.

(** X5.  No operation ever sends a request without credentials: each HTTP
    request of [listMediaItems], [favoriteMediaItem], [archiveMediaItem]
    and [deleteMediaItem] carries exactly the two headers
    [Authorization: Bearer <token>] and [Content-Type: application/json],
    where the token is the non-empty one [getAccessToken] returned for this
    call and holds in the cache. *)
Theorem requests_carry_the_token (mediaItemId : string) :
  sends_only_authorized env (listMediaItems env) /\
  sends_only_authorized env (favoriteMediaItem env mediaItemId) /\
  sends_only_authorized env (archiveMediaItem env mediaItemId) /\
  sends_only_authorized env (deleteMediaItem env mediaItemId).
Proof.
  split; [|split; [|split]]; try (apply mutation_authorized; reflexivity).
  apply (authorized_by_token _ list_request); [reflexivity| | |].
  - intros w w0 token Hg.
    destruct (list_trace env w w0 token Hg) as (logs & Ht & Hl & _). eauto.
  - intros w w0 Hg. unfold listMediaItems, bind. rewrite Hg. simpl.
    apply (getAccessToken_spec env w _ _ Hg).
  - intros w w0 e Hg. unfold listMediaItems. now rewrite (without_token env _ _ _ _ Hg).
Qed.

Lemma ok_iff_2xx (resp : Response) : ok resp = true <-> 200 <= status resp <= 299.
Proof. unfold ok. rewrite andb_true_iff, !Z.leb_le. reflexivity. Qed.

Lemma mutation_iff_accepted (req : string -> Request) (label failure : string) :
  succeeds_iff_accepted env (mutation env req label failure) req.
Proof.
  intros w.
  destruct (mutation env req label failure w) as [r w'] eqn:Hm.
  pose proof (mutation_spec env req label failure w _ _ Hm) as Hs. simpl.
  destruct (getAccessToken env w) as [[[token|]|e] w0] eqn:Hg.
  - destruct Hs as (_ & _ & _ & _ & Hr).
    destruct (fetch env (req token) (ext w0)) as [[resp|e] s1] eqn:Hf; simpl in Hr.
    + split.
      * intros ->. exists token, w0, resp, s1. repeat split; auto;
          destruct (ok resp) eqn:Hok; try discriminate; now apply ok_iff_2xx.
      * intros (token' & w0' & resp' & s1' & Hg' & Hf' & Hst).
        injection Hg' as <- <-. rewrite Hf in Hf'. injection Hf' as <- <-.
        apply ok_iff_2xx in Hst. now rewrite Hst in Hr.
    + split; [intros ->; discriminate|].
      intros (token' & w0' & resp' & s1' & Hg' & Hf' & _).
      injection Hg' as <- <-. rewrite Hf in Hf'. discriminate.
  - destruct Hs as [-> _]. split; [discriminate|].
    intros (? & ? & ? & ? & Hg' & _). discriminate.
  - destruct Hs as [-> _]. split; [discriminate|].
    intros (? & ? & ? & ? & Hg' & _). discriminate.
Qed.

(** X6.  [favoriteMediaItem], [archiveMediaItem] and [deleteMediaItem]
    resolve exactly when a token was obtained and the one request (the
    batchModify POST, or the DELETE of [mediaItems/<id>]) was answered with
    a status from 200 to 299.  The body of a success response is never
    read, and every other status, a redirect or 304 included, is a
    failure. *)
Theorem mutations_succeed_iff_2xx (mediaItemId : string) :
  succeeds_iff_accepted env (favoriteMediaItem env mediaItemId)
    (batchModify_request "favorite" mediaItemId) /\
  succeeds_iff_accepted env (archiveMediaItem env mediaItemId)
    (batchModify_request "archive" mediaItemId) /\
  succeeds_iff_accepted env (deleteMediaItem env mediaItemId)
    (delete_request mediaItemId).
Proof. repeat split; apply mutation_iff_accepted. Qed.

(** X7.  A list request answered with a failure status other than 401
    makes [listMediaItems] reject with
    "Failed to fetch media items: <status> <statusText>".  Unlike on 401
    the cached token and its expiry stay, and a failure body that is not
    JSON does not change the outcome: it is logged as the empty object. *)
Theorem list_failure_reports_status
    (w w0 : World Ext) (token : string) (resp : Response) (s1 : Ext) :
  getAccessToken env w = (Resolved (Some token), w0) ->
  fetch env (list_request token) (ext w0) = (Resolved resp, s1) ->
  ok resp = false ->
  status resp <> 401 ->
  let failure :=
    Error ("Failed to fetch media items: " +:+ number_to_string (status resp)
           +:+ " " +:+ statusText resp) in
  exists w',
    listMediaItems env w = (Rejected failure, w') /\
    cachedToken w' = Some token /\ tokenExpiry w' = tokenExpiry w0 /\
    trace w' = trace w0 ++
      [EvFetch (list_request token);
       EvConsoleError "Google Photos API Error:"
         (LoggedVal (match json resp with Resolved v => v | Rejected _ => JObj [] end));
       EvConsoleError "Error fetching media items:" (LoggedExn failure)].
Proof.
  intros Hg Hf Hok Hst failure.
  unfold listMediaItems. rewrite (with_token env _ _ _ _ _ Hg).
  unfold try_catch, list_attempt, bind, await, console_error, throw. rewrite Hf. simpl.
  rewrite Hok. simpl.
  destruct (Z.eqb_spec (status resp) 401) as [|_]; [contradiction|]. simpl.
  eexists. split; [reflexivity|]. simpl.
  destruct (getAccessToken_spec env w _ _ Hg) as (_ & _ & Hc & _).
  split; [exact Hc|]. split; [reflexivity|].
  rewrite <- !app_assoc. reflexivity.
Qed.

Lemma map_items_null (before after : list JsVal) :
  forall ms, map_items (before ++ JNull :: after) <> Resolved ms.
Proof.
  induction before as [|b before IH]; simpl; intros ms; [discriminate|].
  unfold and_then. destruct (to_media_item b); [|discriminate].
  destruct (map_items (before ++ JNull :: after)) as [rest|] eqn:Hrest; [|discriminate].
  exfalso. now apply (IH rest).
Qed.

Lemma map_items_null_error (before after : list JsVal) :
  forall ms, map_items before = Resolved ms ->
    map_items (before ++ JNull :: after)
    = Rejected (Foreign "TypeError" "Cannot read properties of null (reading 'id')").
Proof.
  induction before as [|b before IH]; simpl; intros ms Hms; [reflexivity|].
  unfold and_then in *. destruct (to_media_item b); [|discriminate].
  destruct (map_items before) as [rest|] eqn:Hb; [|discriminate].
  now rewrite (IH _ eq_refl).
Qed.

(** X8.  A success response whose body is not what the module expects
    makes [listMediaItems] reject, with the error rethrown as it was
    raised and the cache untouched: a body that is not JSON rejects with
    the parser's error; a truthy [mediaItems] that is not an array rejects
    with a [TypeError]; and one [null] element in the array fails the
    whole call, however many well-formed items surround it. *)
Theorem list_malformed_response
    (w w0 : World Ext) (token : string) (resp : Response) (s1 : Ext) :
  getAccessToken env w = (Resolved (Some token), w0) ->
  fetch env (list_request token) (ext w0) = (Resolved resp, s1) ->
  ok resp = true ->
  (forall e, json resp = Rejected e -> fst (listMediaItems env w) = Rejected e) /\
  (forall data v,
     json resp = Resolved data -> get_prop data "mediaItems" = Resolved v ->
     truthy v = true -> (forall items, v <> JArr items) ->
     fst (listMediaItems env w)
       = Rejected (Foreign "TypeError" "data.mediaItems.map is not a function")) /\
  (forall data before after,
     json resp = Resolved data ->
     get_prop data "mediaItems" = Resolved (JArr (before ++ JNull :: after)) ->
     (forall ms, fst (listMediaItems env w) <> Resolved ms) /\
     (forall ms, map_items before = Resolved ms ->
        fst (listMediaItems env w)
          = Rejected (Foreign "TypeError" "Cannot read properties of null (reading 'id')"))) /\
  cachedToken (snd (listMediaItems env w)) = Some token /\
  tokenExpiry (snd (listMediaItems env w)) = tokenExpiry w0.
Proof.
  intros Hg Hf Hok.
  assert (Hrun : listMediaItems env w =
            try_catch (list_attempt env token)
              (fun error => bind (console_error "Error fetching media items:" (LoggedExn error))
                                 (fun _ => throw error)) w0)
    by (unfold listMediaItems; apply (with_token env _ _ _ _ _ Hg)).
  rewrite Hrun.
  unfold try_catch, list_attempt, bind, await, console_error, settle, throw, ret.
  rewrite Hf. simpl. rewrite Hok. simpl.
  destruct (getAccessToken_spec env w _ _ Hg) as (_ & _ & Hc & _).
  split; [|split; [|split]].
  - intros e ->. reflexivity.
  - intros data v -> Hv Ht Hna. simpl. rewrite Hv. simpl. rewrite Ht. simpl.
    destruct v; simpl; try reflexivity. exfalso. now apply (Hna elems).
  - intros data before after -> Hv. simpl. rewrite Hv. simpl.
    split.
    + intros ms. destruct (map_items (before ++ JNull :: after)) eqn:Hm; simpl.
      * exfalso. now apply (map_items_null before after a).
      * discriminate.
    + intros ms Hms. now rewrite (map_items_null_error before after ms Hms).
  - destruct (json resp) as [data|]; simpl; [|auto].
    destruct (get_prop data "mediaItems") as [v|]; simpl; [|auto].
    destruct (truthy v); simpl; [|auto].
    destruct (js_map v); simpl; auto.
Qed.

End OperationTheorems.

Section OperationSequences.

Context {Ext : Type}.
Variable env : Env Ext.

Lemma cache_hit_token (w : World Ext) (user : User) :
  currentUser env (ext w) = Some user ->
  cache_valid env w = true ->
  exists token, cachedToken w = Some token /\
                getAccessToken env w = (Resolved (Some token), w).
Proof.
  intros Hu Hc. destruct (cache_valid_token env w Hc) as (t & e & Ht & _).
  exists t. split; [exact Ht|].
  rewrite (getAccessToken_cache_hit env w user Hu Hc). now rewrite Ht.
Qed.

Lemma mutation_calls_only_the_remote (req : string -> Request) (label failure : string) :
  calls_only_the_remote env (mutation env req label failure) req.
Proof.
  intros w user Hu Hc. destruct (cache_hit_token w user Hu Hc) as (token & Ht & Hg).
  destruct (mutation_trace env req label failure w w token Hg) as (logs & Htr & Hl & _).
  eauto.
Qed.

(** X9.  With a session and a cached token that is still valid, an
    operation makes exactly one call to the outside: the HTTP request,
    sent with the cached token.  The identity provider is not asked and no
    popup is opened; everything else the call does is writing to the
    console. *)
Theorem valid_cache_means_one_call (mediaItemId : string) :
  calls_only_the_remote env (listMediaItems env) list_request /\
  calls_only_the_remote env (favoriteMediaItem env mediaItemId)
    (batchModify_request "favorite" mediaItemId) /\
  calls_only_the_remote env (archiveMediaItem env mediaItemId)
    (batchModify_request "archive" mediaItemId) /\
  calls_only_the_remote env (deleteMediaItem env mediaItemId)
    (delete_request mediaItemId).
Proof.
  split; [|repeat split; apply mutation_calls_only_the_remote].
  intros w user Hu Hc. destruct (cache_hit_token w user Hu Hc) as (token & Ht & Hg).
  destruct (list_trace env w w token Hg) as (logs & Htr & Hl & _). eauto.
Qed.

(** X10.  Listing and then swiping: after a successful [listMediaItems],
    and while the session lasts and the token it left in the cache is
    valid, [favoriteMediaItem], [archiveMediaItem] and [deleteMediaItem]
    send their request with the very token the listing was sent with, and
    call nothing else. *)
Theorem listing_then_mutating
    (w w1 : World Ext) (items : list MediaItem) (user : User) (mediaItemId : string) :
  listMediaItems env w = (Resolved items, w1) ->
  currentUser env (ext w1) = Some user ->
  cache_valid env w1 = true ->
  exists token,
    http_requests (trace w1) = http_requests (trace w) ++ [list_request token] /\
    (exists logs,
       trace (snd (favoriteMediaItem env mediaItemId w1))
         = trace w1 ++ EvFetch (batchModify_request "favorite" mediaItemId token) :: logs /\
       Forall is_log logs) /\
    (exists logs,
       trace (snd (archiveMediaItem env mediaItemId w1))
         = trace w1 ++ EvFetch (batchModify_request "archive" mediaItemId token) :: logs /\
       Forall is_log logs) /\
    (exists logs,
       trace (snd (deleteMediaItem env mediaItemId w1))
         = trace w1 ++ EvFetch (delete_request mediaItemId token) :: logs /\
       Forall is_log logs).
Proof.
  intros Hl Hu Hc.
  destruct (list_success_inv env _ _ _ Hl) as (token & w0 & Hg & Ha).
  destruct (list_attempt_success env _ _ _ _ Ha)
    as (resp & data & v & _ & _ & _ & _ & Ht & Hct & _ & _).
  destruct (getAccessToken_spec env w _ _ Hg) as (Hh & _ & Hc0 & _).
  exists token. split.
  - rewrite Ht, http_requests_app, Hh. reflexivity.
  - assert (Hone : forall req label failure,
               exists logs,
                 trace (snd (mutation env req label failure w1))
                   = trace w1 ++ EvFetch (req token) :: logs /\ Forall is_log logs).
    { intros req label failure.
      destruct (mutation_calls_only_the_remote req label failure w1 user Hu Hc)
        as (token' & logs & Ht' & Htr & Hlogs).
      assert (token' = token) as -> by congruence. eauto. }
    repeat split; apply Hone.
Qed.

Lemma getAccessToken_rejection_logged (w w0 : World Ext) (e : Exn) :
  getAccessToken env w = (Rejected e, w0) ->
  exists pre cause,
    trace w0 = pre ++ [EvConsoleError "Error getting access token:" (LoggedExn cause)].
Proof.
  unfold getAccessToken.
  destruct (currentUser env (ext w)) as [user|]; [|discriminate].
  destruct (cache_valid env w); [discriminate|].
  unfold try_catch. destruct (acquire_token env user w) as [[a|e0] w1]; [discriminate|].
  unfold bind, console_error, throw. intros H; injection H as <- <-. simpl. eauto.
Qed.

Lemma guarded_rejections_logged {A} (op : M Ext A) (label : string) :
  (forall w w0 token, getAccessToken env w = (Resolved (Some token), w0) ->
     forall e, fst (op w) = Rejected e ->
       exists pre cause, trace (snd (op w)) = pre ++ [EvConsoleError label (LoggedExn cause)]) ->
  (forall w w0 e, getAccessToken env w = (Rejected e, w0) -> snd (op w) = w0) ->
  rejections_logged env op.
Proof.
  intros Htok Hrej w w' user e Hu Hop.
  destruct (getAccessToken env w) as [[[token|]|e0] w0] eqn:Hg.
  - specialize (Htok w w0 token Hg e). rewrite Hop in Htok. simpl in Htok.
    destruct (Htok eq_refl) as (pre & cause & ->). eauto.
  - destruct (getAccessToken_spec env w _ _ Hg) as (_ & _ & Hnone). congruence.
  - specialize (Hrej w w0 e0 Hg). rewrite Hop in Hrej. simpl in Hrej. subst w'.
    destruct (getAccessToken_rejection_logged w w0 e0 Hg) as (pre & cause & ->). eauto.
Qed.

(** X11.  Nothing fails in silence: with a session present, whenever
    [listMediaItems], [favoriteMediaItem], [archiveMediaItem] or
    [deleteMediaItem] rejects, the last thing the call did was to write the
    error to the console. *)
Theorem rejections_are_logged (mediaItemId : string) :
  rejections_logged env (listMediaItems env) /\
  rejections_logged env (favoriteMediaItem env mediaItemId) /\
  rejections_logged env (archiveMediaItem env mediaItemId) /\
  rejections_logged env (deleteMediaItem env mediaItemId).
Proof.
  assert (Hmut : forall req label failure,
             rejections_logged env (mutation env req label failure)).
  { intros req label failure. apply (guarded_rejections_logged _ label).
    - intros w w0 token Hg.
      destruct (mutation_trace env req label failure w w0 token Hg) as (_ & _ & _ & Hlog).
      exact Hlog.
    - intros w w0 e Hg. unfold mutation. now rewrite (without_token env _ _ _ _ Hg). }
  split; [|repeat split; apply Hmut].
  apply (guarded_rejections_logged _ "Error fetching media items:").
  - intros w w0 token Hg.
    destruct (list_trace env w w0 token Hg) as (_ & _ & _ & Hlog). exact Hlog.
  - intros w w0 e Hg. unfold listMediaItems. now rewrite (without_token env _ _ _ _ Hg).
Qed.

End OperationSequences.

(** ** The cursor of the page *)

Section PageCursor.

Import Page.

Lemma current_item_nat (items : list MediaItem) (n : nat) :
  current_item items (Z.of_nat n) = items !! n.
Proof.
  unfold current_item. destruct (Z.ltb_spec (Z.of_nat n) 0); [lia|].
  now rewrite Nat2Z.id.
Qed.

Lemma filter_index_all {A} (keep : Z -> bool) (l : list A) :
  forall o, (forall k, o <= k -> keep k = true) -> filter_index keep o l = l.
Proof.
  induction l as [|x l IH]; simpl; intros o Hk; [reflexivity|].
  rewrite (Hk o) by lia. f_equal. apply IH. intros k Hle. apply Hk. lia.
Qed.

(** Filtering out one index is cutting the list there. *)
Lemma filter_index_remove {A} (l : list A) :
  forall (o i : Z) (n : nat),
    i = o + Z.of_nat n ->
    filter_index (fun index => negb (index =? i)) o l = take n l ++ drop (S n) l.
Proof.
  induction l as [|x l IH]; intros o i n Hi; simpl.
  - now destruct n.
  - destruct n as [|n]; simpl.
    + destruct (Z.eqb_spec o i); [|lia]. simpl.
      rewrite drop_0. apply filter_index_all.
      intros k Hle. apply negb_true_iff, Z.eqb_neq. lia.
    + destruct (Z.eqb_spec o i); [lia|]. simpl. f_equal.
      apply IH. lia.
Qed.

Lemma remove_current_cut (items : list MediaItem) (n : nat) :
  remove_current (Z.of_nat n) items = take n items ++ drop (S n) items.
Proof. unfold remove_current. apply filter_index_remove. lia. Qed.

(** X12.  [handleSwipeRight] moves the cursor forward by one photo and
    never past the last one: from an index inside the list the requested
    index is inside the list, it is the same index exactly on the last
    photo, and there is always a photo under it.  On an empty list the
    cursor stays where it is. *)
Theorem swipe_right_stays_in_range (items : list MediaItem) (i : Z) :
  0 <= i < Z.of_nat (length items) ->
  let j := handleSwipeRight items i in
  i <= j <= i + 1 /\
  0 <= j < Z.of_nat (length items) /\
  (j = i <-> i = Z.of_nat (length items) - 1) /\
  is_Some (current_item items j) /\
  (forall k, 0 <= k -> handleSwipeRight [] k = k).
Proof.
  intros Hi j. subst j. unfold handleSwipeRight.
  destruct (Z.ltb_spec i (Z.of_nat (length items) - 1)) as [Hlt|Hge].
  - repeat split; try lia.
    + rewrite <- (Z2Nat.id (i + 1)) by lia. rewrite current_item_nat.
      apply lookup_lt_is_Some. lia.
    + intros k Hk. simpl. destruct (k <? Z.of_nat 0 - 1) eqn:E; [apply Z.ltb_lt in E; lia | reflexivity].
  - repeat split; try lia.
    + rewrite <- (Z2Nat.id i) by lia. rewrite current_item_nat.
      apply lookup_lt_is_Some. lia.
    + intros k Hk. simpl. destruct (k <? Z.of_nat 0 - 1) eqn:E; [apply Z.ltb_lt in E; lia | reflexivity].
Qed.

(** X13.  The list requested after a successful delete is the old list
    without the photo under the cursor: one shorter, the photos before the
    cursor in place and the photos after it moved up by one.  The cursor
    itself is not moved, so it shows the photo that followed the deleted
    one, and after deleting the last photo it points past the end of the
    list: nothing is shown, although photos remain before it. *)
Theorem remove_current_shifts (items : list MediaItem) (i : Z) :
  0 <= i < Z.of_nat (length items) ->
  let items' := remove_current i items in
  Z.of_nat (length items') = Z.of_nat (length items) - 1 /\
  (forall j, 0 <= j < i -> current_item items' j = current_item items j) /\
  (forall j, i <= j -> current_item items' j = current_item items (j + 1)) /\
  (i = Z.of_nat (length items) - 1 -> current_item items' i = None).
Proof.
  intros Hi items'. subst items'.
  rewrite <- (Z2Nat.id i) by lia. set (n := Z.to_nat i).
  assert (Hn : (n < length items)%nat) by lia.
  rewrite remove_current_cut.
  assert (Hshift : forall j, Z.of_nat n <= j ->
            current_item (take n items ++ drop (S n) items) j
            = current_item items (j + 1)).
  { intros j Hj. rewrite <- (Z2Nat.id j), <- (Z2Nat.id (Z.of_nat (Z.to_nat j) + 1)) by lia.
    rewrite !current_item_nat.
    rewrite lookup_app_r by (rewrite length_take; lia).
    rewrite lookup_drop, length_take. f_equal. lia. }
  split; [|split; [|split]].
  - rewrite length_app, length_take, length_drop. lia.
  - intros j Hj. rewrite <- (Z2Nat.id j) by lia. rewrite !current_item_nat.
    rewrite lookup_app_l by (rewrite length_take; lia).
    apply lookup_take_lt. lia.
  - exact Hshift.
  - intros Hlast. rewrite Hshift by lia.
    rewrite <- (Z2Nat.id (Z.of_nat n + 1)) by lia. rewrite current_item_nat.
    apply lookup_ge_None. lia.
Qed.

End PageCursor.

Lemma swipe_right_stays_in_range_witness :
  Page.handleSwipeRight Scenario.three_items 1 = 2 /\
  Page.handleSwipeRight Scenario.three_items 2 = 2 /\
  Page.current_item Scenario.three_items (Page.handleSwipeRight Scenario.three_items 2)
  = Some (Scenario.item "c").
Proof.
  destruct (swipe_right_stays_in_range Scenario.three_items 1) as (_ & _ & _ & _ & _);
    [simpl; lia|].
  destruct (swipe_right_stays_in_range Scenario.three_items 2) as (_ & _ & Hlast & _);
    [simpl; lia|].
  split; [reflexivity|]. split; [apply Hlast; reflexivity | reflexivity].
Defined.

Lemma remove_current_shifts_witness :
  Page.current_item (Page.remove_current 1 Scenario.three_items) 1
  = Some (Scenario.item "c") /\
  Page.current_item (Page.remove_current 2 Scenario.three_items) 2 = None.
Proof.
  destruct (remove_current_shifts Scenario.three_items 1) as (_ & _ & Hnext & _);
    [simpl; lia|].
  destruct (remove_current_shifts Scenario.three_items 2) as (_ & _ & _ & Hlast);
    [simpl; lia|].
  split; [rewrite (Hnext 1) by lia; reflexivity | apply Hlast; reflexivity].
Defined.

(** ** The further statements at work on the simulated world *)

Lemma mutations_succeed_iff_2xx_witness :
  let w := Sim.cached "tok-1" 3601000 Sim.start in
  fst (favoriteMediaItem (Scenario.answering Scenario.no_content) "a" w) = Resolved tt /\
  fst (favoriteMediaItem (Scenario.answering Scenario.not_modified) "a" w) <> Resolved tt.
Proof.
  split.
  - apply (proj1 (mutations_succeed_iff_2xx (Scenario.answering Scenario.no_content) "a")).
    exists "tok-1", (Sim.cached "tok-1" 3601000 Sim.start), Scenario.no_content,
      (Sim.tick Sim.start).
    split; [reflexivity|]. split; [reflexivity | simpl; lia].
  - intros H.
    apply (proj1 (mutations_succeed_iff_2xx (Scenario.answering Scenario.not_modified) "a"))
      in H.
    destruct H as (token & w0 & resp & s1 & _ & Hf & Hst).
    injection Hf as <- _. simpl in Hst. lia.
Defined.

Lemma list_failure_reports_status_witness :
  let w := Sim.cached "tok-1" 3601000 Sim.start in
  exists w',
    listMediaItems (Scenario.answering Scenario.server_error) w
      = (Rejected (Error "Failed to fetch media items: 500 Internal Server Error"), w') /\
    cachedToken w' = Some "tok-1" /\ tokenExpiry w' = Some 3601000.
Proof.
  destruct (list_failure_reports_status (Scenario.answering Scenario.server_error)
              (Sim.cached "tok-1" 3601000 Sim.start) _ "tok-1"
              Scenario.server_error (Sim.tick Sim.start) eq_refl eq_refl eq_refl)
    as (w' & Hrun & Hc & He & _); [discriminate|].
  exists w'. split; [exact Hrun|]. split; [exact Hc | exact He].
Defined.

Lemma list_malformed_response_witness :
  let w := Sim.fresh (Sim.with_catalog
                        (Resolved (JObj [("mediaItems",
                                          JArr [Sim.photo "a" "https://lh3.example/a";
                                                JNull;
                                                Sim.photo "b" "https://lh3.example/b"])]))
                        Sim.start) in
  fst (listMediaItems Sim.env w)
  = Rejected (Foreign "TypeError" "Cannot read properties of null (reading 'id')").
Proof.
  intros w.
  destruct (list_malformed_response Sim.env w (snd (getAccessToken Sim.env w)) "tok-1"
              (Sim.respond 200 "OK" (Sim.catalog (ext w)))
              (Sim.tick (Sim.tick (Sim.tick (ext w)))) eq_refl eq_refl eq_refl)
    as (_ & _ & Hnull & _).
  destruct (Hnull _ [Sim.photo "a" "https://lh3.example/a"]
                  [Sim.photo "b" "https://lh3.example/b"] eq_refl eq_refl) as [_ Herr].
  eapply Herr. reflexivity.
Defined.

Lemma valid_cache_means_one_call_witness :
  let w := Sim.cached "tok-1" 3601000 Sim.start in
  exists logs,
    trace (snd (deleteMediaItem Sim.env "a" w))
      = EvFetch (delete_request "a" "tok-1") :: logs /\
    Forall is_log logs.
Proof.
  destruct (valid_cache_means_one_call Sim.env "a") as (_ & _ & _ & Hdel).
  destruct (Hdel (Sim.cached "tok-1" 3601000 Sim.start) Sim.alice eq_refl eq_refl)
    as (token & logs & Ht & Htr & Hl).
  injection Ht as <-. exists logs. split; [exact Htr | exact Hl].
Defined.

Lemma listing_then_mutating_witness :
  let w := Sim.fresh Sim.start in
  let w1 := snd (listMediaItems Sim.env w) in
  exists token,
    http_requests (trace w1) = [list_request token] /\
    exists logs,
      trace (snd (archiveMediaItem Sim.env "b" w1))
        = trace w1 ++ EvFetch (batchModify_request "archive" "b" token) :: logs /\
      Forall is_log logs.
Proof.
  intros w w1.
  destruct (listing_then_mutating Sim.env w w1 _ Sim.alice "b" eq_refl eq_refl eq_refl)
    as (token & Hreq & _ & Harc & _).
  exists token. split; [exact Hreq | exact Harc].
Defined.

Lemma rejections_are_logged_witness :
  let w := Sim.fresh Sim.idp_down in
  exists pre label arg,
    trace (snd (listMediaItems Sim.env w)) = pre ++ [EvConsoleError label arg].
Proof.
  destruct (rejections_are_logged Sim.env "a") as (Hlist & _).
  apply (Hlist (Sim.fresh Sim.idp_down) _ Sim.alice
           (Error "Failed to get access token") eq_refl).
  reflexivity.
Defined.
